(** * SecureBridge: hybrid sealing of PII (RSA-OAEP + AES-256-GCM)

    A shallow embedding of [frontend/src/lib/secureBridge.ts] and of the
    hook [frontend/src/hooks/useSecureBridge.ts], together with the parts of
    the design the repository only describes (unsealing, the key registry,
    the re-encryption worker).

    Conventions.
    - An [ArrayBuffer] / [Uint8Array] is a [list byte].
    - A JavaScript string is the list of its UTF-16 code units, each a [Z].
    - A promise that rejects and a [throw] are both the [Err] outcome.
    - The browser's randomness is an explicit entropy tape that every
      drawing operation consumes. *)

From stdpp Require Import base option list strings gmap.
From Stdlib Require Import ZArith Lia Strings.Byte.

Open Scope Z_scope.

(** Linear arithmetic with division and remainder by literals. *)
Ltac zlia := Z.div_mod_to_equations; lia.

(* ===================================================================== *)
(** * Outcomes of a call *)
(* ===================================================================== *)

(** The exceptions the platform raises on the paths the library takes. *)
Inductive DOMException :=
| InvalidCharacterError
| DataError
| NotSupportedError
| InvalidAccessError
| OperationError
| SyntaxError.

(** What a caller of the library can observe being thrown: the three
    [new Error(...)] sites of secureBridge.ts, told apart by their messages.
    The two wrapping sites interpolate the caught error. *)
Inductive Error :=
| NotInitializedError
| InitializationError (cause : DOMException)
| EncryptionError (cause : DOMException).

Inductive Outcome (E A : Type) :=
| Ok (a : A)
| Err (e : E).
Arguments Ok {E A} a.
Arguments Err {E A} e.

Definition obind {E A B} (m : Outcome E A) (k : A -> Outcome E B) : Outcome E B :=
  match m with
  | Ok a => k a
  | Err e => Err e
  end.

Definition is_ok {E A} (m : Outcome E A) : bool :=
  match m with Ok _ => true | Err _ => false end.

(* ===================================================================== *)
(** * Bytes and code units *)
(* ===================================================================== *)

Definition byte_to_Z (b : byte) : Z := Z.of_N (Byte.to_N b).

(** Storing a number into a [Uint8Array] element keeps it modulo 256. *)
Definition Z_to_byte (z : Z) : byte :=
  match Byte.of_N (Z.to_N (z mod 256)) with
  | Some b => b
  | None => x00
  end.

(** A JavaScript string: its UTF-16 code units. *)
Definition DOMString := list Z.

(** [String.fromCharCode(n)]: one code unit, [n] taken modulo 2^16. *)
Definition fromCharCode (n : Z) : Z := n mod 65536.

(* ===================================================================== *)
(** * Base64 as the browser provides it: [btoa] and [atob] *)
(* ===================================================================== *)

(** [btoa] and [atob] are builtins; they are modelled on the algorithms the
    HTML and Infra standards give for them (forgiving-base64 encode and
    decode over the RFC 4648 alphabet). *)
Module Base64.

(** The alphabet: sextet value to the ASCII code of its character. *)
Definition alphabet (i : Z) : Z :=
  if i <? 26 then 65 + i
  else if i <? 52 then 97 + (i - 26)
  else if i <? 62 then 48 + (i - 52)
  else if i =? 62 then 43
  else 47.

(** The inverse table; [None] for a code unit outside the alphabet. *)
Definition index (c : Z) : option Z :=
  if (65 <=? c) && (c <=? 90) then Some (c - 65)
  else if (97 <=? c) && (c <=? 122) then Some (c - 97 + 26)
  else if (48 <=? c) && (c <=? 57) then Some (c - 48 + 52)
  else if c =? 43 then Some 62
  else if c =? 47 then Some 63
  else None.

Definition pad : Z := 61.

Definition octet (z : Z) : Prop := 0 <= z < 256.
Definition sextet (z : Z) : Prop := 0 <= z < 64.

(** Octets to sextets, three octets (24 bits) at a time; a final group of
    one or two octets is padded with zero bits to 12 or 18 bits. *)
Fixpoint sextets (bs : list Z) : list Z :=
  match bs with
  | [] => []
  | [a] =>
      let n := a * 16 in
      [n / 64; n mod 64]
  | [a; b] =>
      let n := (a * 256 + b) * 4 in
      [n / 4096; (n / 64) mod 64; n mod 64]
  | a :: b :: c :: rest =>
      let n := a * 65536 + b * 256 + c in
      n / 262144 :: (n / 4096) mod 64 :: (n / 64) mod 64 :: n mod 64
        :: sextets rest
  end.

Definition padding (len : nat) : list Z :=
  match (len mod 3)%nat with
  | 1%nat => [pad; pad]
  | 2%nat => [pad]
  | _ => []
  end.

Definition encode (bs : list Z) : list Z :=
  map alphabet (sextets bs) ++ padding (length bs).

(** Sextets back to octets, four sextets (24 bits) at a time; of a final
    12 bits the last four are dropped, of a final 18 bits the last two. *)
Fixpoint octets (sx : list Z) : list Z :=
  match sx with
  | s0 :: s1 :: s2 :: s3 :: rest =>
      let n := s0 * 262144 + s1 * 4096 + s2 * 64 + s3 in
      n / 65536 :: (n / 256) mod 256 :: n mod 256 :: octets rest
  | [s0; s1; s2] =>
      let n := (s0 * 4096 + s1 * 64 + s2) / 4 in
      [n / 256; n mod 256]
  | [s0; s1] =>
      let n := (s0 * 64 + s1) / 16 in
      [n]
  | _ => []
  end.

Definition is_ascii_whitespace (c : Z) : bool :=
  (c =? 9) || (c =? 10) || (c =? 12) || (c =? 13) || (c =? 32).

(** "If data's length divides by 4 leaving no remainder and data ends
    with one or two U+003D, remove them." *)
Definition strip_padding (data : list Z) : list Z :=
  if (length data mod 4 =? 0)%nat then
    match rev data with
    | c1 :: r1 =>
        if c1 =? pad then
          match r1 with
          | c2 :: r2 => if c2 =? pad then rev r2 else rev r1
          | [] => rev r1
          end
        else data
    | [] => data
    end
  else data.

Fixpoint indices (data : list Z) : option (list Z) :=
  match data with
  | [] => Some []
  | c :: rest =>
      match index c, indices rest with
      | Some i, Some sx => Some (i :: sx)
      | _, _ => None
      end
  end.

Definition decode (data : list Z) : option (list Z) :=
  let data := filter (fun c => is_ascii_whitespace c = false) data in
  let data := strip_padding data in
  if (length data mod 4 =? 1)%nat then None
  else
    match indices data with
    | Some sx => Some (octets sx)
    | None => None
    end.

End Base64.

(** [btoa(data)]: "InvalidCharacterError" if a code unit is above U+00FF,
    otherwise the base64 text of the bytes the code units stand for. *)
Definition btoa (data : DOMString) : Outcome DOMException DOMString :=
  if forallb (fun c => c <=? 255) data then Ok (Base64.encode data)
  else Err InvalidCharacterError.

(** [atob(data)]: the binary string of the decoded bytes, or
    "InvalidCharacterError" when [data] is not forgiving-base64. *)
Definition atob (data : DOMString) : Outcome DOMException DOMString :=
  match Base64.decode data with
  | Some bs => Ok bs
  | None => Err InvalidCharacterError
  end.

(* ===================================================================== *)
(** * The private helpers of [SecureBridge] *)
(* ===================================================================== *)

(** [bytes[i]] of a [Uint8Array]; reading past the end gives [undefined],
    which the conversions below treat as 0. *)
Definition Uint8Array_get (bytes : list byte) (i : nat) : Z :=
  match bytes !! i with
  | Some b => byte_to_Z b
  | None => 0
  end.

(** [binary.charCodeAt(i)]; past the end it is [NaN], stored as 0. *)
Definition charCodeAt (s : DOMString) (i : nat) : Z :=
  match s !! i with
  | Some c => c
  | None => 0
  end.

(** [arrayBufferToBase64]: the loop over [i < bytes.length] appends
    [String.fromCharCode(bytes[i])] to [binary]; then [btoa(binary)]. *)
Definition arrayBufferToBase64 (buffer : list byte) : Outcome DOMException DOMString :=
  let bytes := buffer in
  let binary :=
    fold_left (fun binary i => binary ++ [fromCharCode (Uint8Array_get bytes i)])
              (seq 0 (length bytes)) [] in
  btoa binary.

(** [base64ToArrayBuffer]: [atob], then the loop over [i < binary.length]
    stores [binary.charCodeAt(i)] into element [i] of a zero-filled
    [Uint8Array] of that length. *)
Definition base64ToArrayBuffer (base64 : DOMString) : Outcome DOMException (list byte) :=
  obind (atob base64) (fun binary =>
    let bytes := replicate (length binary) x00 in
    Ok (fold_left (fun bytes i => <[i := Z_to_byte (charCodeAt binary i)]> bytes)
                  (seq 0 (length binary)) bytes)).

(* ===================================================================== *)
(** * Text: UTF-16 strings and their UTF-8 bytes *)
(* ===================================================================== *)

Module Unicode.

Definition is_lead_surrogate (c : Z) : bool := (0xD800 <=? c) && (c <=? 0xDBFF).
Definition is_trail_surrogate (c : Z) : bool := (0xDC00 <=? c) && (c <=? 0xDFFF).

Definition replacement_character : Z := 0xFFFD.

(** The scalar values: the code points that are no surrogates. *)
Definition scalar (cp : Z) : Prop :=
  0 <= cp < 0xD800 \/ 0xE000 <= cp <= 0x10FFFF.

(** A string's scalar values, as the conversion of a JavaScript string to
    a [USVString] reads them: a surrogate pair is one supplementary code
    point, and a surrogate without its partner becomes U+FFFD. *)
Fixpoint scalar_values (s : DOMString) : list Z :=
  match s with
  | [] => []
  | c :: rest =>
      if is_lead_surrogate c then
        match rest with
        | d :: rest' =>
            if is_trail_surrogate d
            then 0x10000 + (c - 0xD800) * 0x400 + (d - 0xDC00) :: scalar_values rest'
            else replacement_character :: scalar_values rest
        | [] => [replacement_character]
        end
      else if is_trail_surrogate c then replacement_character :: scalar_values rest
      else c :: scalar_values rest
  end.

(** [String.prototype.isWellFormed]: no surrogate stands alone. *)
Fixpoint isWellFormed (s : DOMString) : bool :=
  match s with
  | [] => true
  | c :: rest =>
      if is_lead_surrogate c then
        match rest with
        | d :: rest' => is_trail_surrogate d && isWellFormed rest'
        | [] => false
        end
      else negb (is_trail_surrogate c) && (0 <=? c) && (c <? 0x10000)
           && isWellFormed rest
  end.

(** The UTF-8 encoder: one to four bytes per scalar value. *)
Definition utf8_encode_scalar (cp : Z) : list Z :=
  if cp <=? 0x7F then [cp]
  else if cp <=? 0x7FF then [0xC0 + cp / 64; 0x80 + cp mod 64]
  else if cp <=? 0xFFFF then
    [0xE0 + cp / 4096; 0x80 + (cp / 64) mod 64; 0x80 + cp mod 64]
  else
    [0xF0 + cp / 262144; 0x80 + (cp / 4096) mod 64;
     0x80 + (cp / 64) mod 64; 0x80 + cp mod 64].

Fixpoint utf8_encode (cps : list Z) : list Z :=
  match cps with
  | [] => []
  | cp :: rest => utf8_encode_scalar cp ++ utf8_encode rest
  end.

Definition is_continuation (b : Z) : bool := (0x80 <=? b) && (b <=? 0xBF).

(** A strict UTF-8 decoder: overlong forms, encoded surrogates and values
    above U+10FFFF are refused. *)
Fixpoint utf8_decode (bs : list Z) : option (list Z) :=
  match bs with
  | [] => Some []
  | b0 :: r0 =>
      if (0 <=? b0) && (b0 <=? 0x7F) then
        option_map (cons b0) (utf8_decode r0)
      else if (0xC2 <=? b0) && (b0 <=? 0xDF) then
        match r0 with
        | b1 :: r1 =>
            if is_continuation b1 then
              option_map (cons ((b0 - 0xC0) * 64 + (b1 - 0x80))) (utf8_decode r1)
            else None
        | _ => None
        end
      else if (0xE0 <=? b0) && (b0 <=? 0xEF) then
        match r0 with
        | b1 :: b2 :: r2 =>
            let cp := (b0 - 0xE0) * 4096 + (b1 - 0x80) * 64 + (b2 - 0x80) in
            if is_continuation b1 && is_continuation b2
               && (0x800 <=? cp) && negb ((0xD800 <=? cp) && (cp <=? 0xDFFF))
            then option_map (cons cp) (utf8_decode r2)
            else None
        | _ => None
        end
      else if (0xF0 <=? b0) && (b0 <=? 0xF4) then
        match r0 with
        | b1 :: b2 :: b3 :: r3 =>
            let cp := (b0 - 0xF0) * 262144 + (b1 - 0x80) * 4096
                      + (b2 - 0x80) * 64 + (b3 - 0x80) in
            if is_continuation b1 && is_continuation b2 && is_continuation b3
               && (0x10000 <=? cp) && (cp <=? 0x10FFFF)
            then option_map (cons cp) (utf8_decode r3)
            else None
        | _ => None
        end
      else None
  end.

(** Scalar values back to UTF-16 code units. *)
Definition utf16_encode_scalar (cp : Z) : list Z :=
  if cp <? 0x10000 then [cp]
  else [0xD800 + (cp - 0x10000) / 0x400; 0xDC00 + (cp - 0x10000) mod 0x400].

Fixpoint utf16_encode (cps : list Z) : DOMString :=
  match cps with
  | [] => []
  | cp :: rest => utf16_encode_scalar cp ++ utf16_encode rest
  end.

End Unicode.

(** [new TextEncoder().encode(data)]: the UTF-8 bytes of the string's
    scalar values. *)
Definition TextEncoder_encode (data : DOMString) : list byte :=
  map Z_to_byte (Unicode.utf8_encode (Unicode.scalar_values data)).

(** Decoding of UTF-8 bytes into a string, failing on malformed input (the
    receiving side's inverse of [TextEncoder_encode]). *)
Definition utf8_to_string (bytes : list byte) : option DOMString :=
  option_map Unicode.utf16_encode (Unicode.utf8_decode (map byte_to_Z bytes)).

(* ===================================================================== *)
(** * Language helpers the library calls *)
(* ===================================================================== *)

(** A string literal of the source, as code units. *)
Definition lit (s : string) : DOMString :=
  map (fun a => Z.of_N (Ascii.N_of_ascii a)) (String.list_ascii_of_string s).

Fixpoint starts_with (pat s : DOMString) : bool :=
  match pat, s with
  | [], _ => true
  | p :: pat', c :: s' => (p =? c) && starts_with pat' s'
  | _ :: _, [] => false
  end.

(** [s.replace(pat, repl)] with a string pattern: only the first occurrence
    is replaced. *)
Fixpoint String_replace (s pat repl : DOMString) {struct s} : DOMString :=
  if starts_with pat s then repl ++ drop (length pat) s
  else
    match s with
    | [] => []
    | c :: rest => c :: String_replace rest pat repl
    end.

(** The characters the regular expression class [\s] matches. *)
Definition is_regexp_space (c : Z) : bool :=
  ((9 <=? c) && (c <=? 13)) || (c =? 0x20) || (c =? 0xA0) || (c =? 0x1680)
  || ((0x2000 <=? c) && (c <=? 0x200A)) || (c =? 0x2028) || (c =? 0x2029)
  || (c =? 0x202F) || (c =? 0x205F) || (c =? 0x3000) || (c =? 0xFEFF).

(** [s.replace(/\s/g, '')]. *)
Definition remove_spaces (s : DOMString) : DOMString :=
  filter (fun c => is_regexp_space c = false) s.

(** An index relative to the end when negative, clamped to the buffer. *)
Definition relative_index (len k : Z) : Z :=
  if k <? 0 then Z.max (len + k) 0 else Z.min k len.

(** [buffer.slice(begin, end)] of an [ArrayBuffer]; [end] defaults to the
    length. *)
Definition ArrayBuffer_slice (buffer : list byte) (begin : Z) (end_ : option Z)
  : list byte :=
  let len := Z.of_nat (length buffer) in
  let first := relative_index len begin in
  let final := match end_ with Some e => relative_index len e | None => len end in
  let newLen := Z.max (final - first) 0 in
  take (Z.to_nat newLen) (drop (Z.to_nat first) buffer).

(* ===================================================================== *)
(** * Randomness *)
(* ===================================================================== *)

(** The entropy the platform will hand out, in the order it hands it out. *)
Definition Entropy := nat -> byte.

Definition draw (n : nat) (e : Entropy) : list byte * Entropy :=
  (map e (seq 0 n), fun i => e (n + i)%nat).

(** What a call of [encrypt] started on tape [e] reads from it: 32 bytes
    for the AES key, 12 for the nonce, then the seed of the OAEP padding. *)
Definition drawn_key (e : Entropy) : list byte := map e (seq 0 32).
Definition drawn_nonce (e : Entropy) : list byte := map e (seq 32 12).

(** Platform calls: they may consume entropy and may fail. *)
Definition Platform (A : Type) : Type := Entropy -> Outcome DOMException A * Entropy.

Definition ret {A} (a : A) : Platform A := fun e => (Ok a, e).
Definition throw {A} (x : DOMException) : Platform A := fun e => (Err x, e).
Definition pbind {A B} (m : Platform A) (k : A -> Platform B) : Platform B :=
  fun e =>
    match m e with
    | (Ok a, e') => k a e'
    | (Err x, e') => (Err x, e')
    end.
Definition lift {A} (o : Outcome DOMException A) : Platform A := fun e => (o, e).

Notation "'let!' x ':=' m 'in' k" := (pbind m (fun x => k))
  (at level 10, x name, m at level 100, k at level 200).

(** [crypto.getRandomValues(new Uint8Array(n))]. *)
Definition getRandomValues (n : nat) : Platform (list byte) :=
  fun e => let (bytes, e') := draw n e in (Ok bytes, e').

(* ===================================================================== *)
(** * The Web Cryptography API, as far as the library uses it *)
(* ===================================================================== *)

Inductive HashAlgorithm := SHA_1 | SHA_256 | SHA_384 | SHA_512.

Definition digest_length (h : HashAlgorithm) : nat :=
  match h with SHA_1 => 20 | SHA_256 => 32 | SHA_384 => 48 | SHA_512 => 64 end%nat.

Inductive KeyFormat := FormatRaw | FormatSpki | FormatPkcs8 | FormatJwk.

Inductive KeyUsage :=
| UsageEncrypt | UsageDecrypt | UsageWrapKey | UsageUnwrapKey
| UsageSign | UsageVerify | UsageDeriveKey | UsageDeriveBits.

Definition KeyUsage_eqb (a b : KeyUsage) : bool :=
  match a, b with
  | UsageEncrypt, UsageEncrypt | UsageDecrypt, UsageDecrypt
  | UsageWrapKey, UsageWrapKey | UsageUnwrapKey, UsageUnwrapKey
  | UsageSign, UsageSign | UsageVerify, UsageVerify
  | UsageDeriveKey, UsageDeriveKey | UsageDeriveBits, UsageDeriveBits => true
  | _, _ => false
  end.

(** The cryptographic primitives themselves are the platform's; the model
    is parametric in them. AES-GCM is split the way the mode is built: a
    counter-mode pass over the data, and a tag computed over the resulting
    ciphertext (no additional data is ever passed). *)
Class Primitives := {
  RsaPublicKey : Type;
  RsaPrivateKey : Type;
  (** The RSA key of a DER [SubjectPublicKeyInfo], if it holds one. *)
  parse_spki : list byte -> option RsaPublicKey;
  (** RSAES-OAEP with the given hash, the empty label and the given seed;
      [None] when the message does not fit the modulus. *)
  rsa_oaep_encrypt :
    HashAlgorithm -> RsaPublicKey -> list byte -> list byte -> option (list byte);
  rsa_oaep_decrypt :
    HashAlgorithm -> RsaPrivateKey -> list byte -> option (list byte);
  (** [gcm_ctr key iv data] and [gcm_tag key iv ciphertext]. *)
  gcm_ctr : list byte -> list byte -> list byte -> list byte;
  gcm_tag : list byte -> list byte -> list byte -> list byte;
}.

Definition drawn_seed (h : HashAlgorithm) (e : Entropy) : list byte :=
  map e (seq 44 (digest_length h)).

Section WebCrypto.
Context `{Primitives}.

Inductive KeyAlgorithm :=
| RsaOaepKey (hash : HashAlgorithm)     (* name "RSA-OAEP" *)
| AesGcmKey (length : Z).               (* name "AES-GCM" *)

Inductive KeyData :=
| PublicRsa (k : RsaPublicKey)
| SecretBytes (k : list byte).

Record CryptoKey := {
  key_algorithm : KeyAlgorithm;
  key_extractable : bool;
  key_usages : list KeyUsage;
  key_data : KeyData;
}.

Definition has_usage (u : KeyUsage) (key : CryptoKey) : bool :=
  existsb (KeyUsage_eqb u) (key_usages key).

Inductive ImportAlgorithm :=
| RsaHashedImportParams (hash : HashAlgorithm).   (* name "RSA-OAEP" *)

(** [crypto.subtle.importKey(format, keyData, algorithm, extractable,
    usages)] for an RSA-OAEP key. Only the "spki" format carries a
    public key in bytes. *)
Definition importKey (format : KeyFormat) (keyData : list byte)
    (algorithm : ImportAlgorithm) (extractable : bool) (usages : list KeyUsage)
  : Outcome DOMException CryptoKey :=
  match algorithm, format with
  | RsaHashedImportParams hash, FormatSpki =>
      if negb (forallb (fun u => KeyUsage_eqb u UsageEncrypt
                                 || KeyUsage_eqb u UsageWrapKey) usages)
      then Err SyntaxError
      else
        match parse_spki keyData with
        | Some k =>
            Ok {| key_algorithm := RsaOaepKey hash;
                  key_extractable := extractable;
                  key_usages := usages;
                  key_data := PublicRsa k |}
        | None => Err DataError
        end
  | _, _ => Err NotSupportedError
  end.

(** [crypto.subtle.generateKey({name: 'AES-GCM', length}, extractable,
    usages)]. *)
Definition generateKey_AesGcm (len : Z) (extractable : bool)
    (usages : list KeyUsage) : Platform CryptoKey :=
  if negb (forallb (fun u => KeyUsage_eqb u UsageEncrypt
                             || KeyUsage_eqb u UsageDecrypt
                             || KeyUsage_eqb u UsageWrapKey
                             || KeyUsage_eqb u UsageUnwrapKey) usages)
  then throw SyntaxError
  else if negb ((len =? 128) || (len =? 192) || (len =? 256))
  then throw OperationError
  else
    let! k := getRandomValues (Z.to_nat (len / 8)) in
    if match usages with [] => true | _ => false end then throw SyntaxError
    else
      ret {| key_algorithm := AesGcmKey len;
             key_extractable := extractable;
             key_usages := usages;
             key_data := SecretBytes k |}.

Inductive EncryptAlgorithm :=
| AesGcmParams (iv : list byte) (tagLength : Z)   (* name "AES-GCM" *)
| RsaOaepParams.                                  (* name "RSA-OAEP" *)

Definition valid_tag_length (t : Z) : bool :=
  (t =? 32) || (t =? 64) || (t =? 96) || (t =? 104) || (t =? 112)
  || (t =? 120) || (t =? 128).

(** [crypto.subtle.encrypt(algorithm, key, data)]. The result of AES-GCM
    is the ciphertext followed by the tag. *)
Definition subtle_encrypt (algorithm : EncryptAlgorithm) (key : CryptoKey)
    (data : list byte) : Platform (list byte) :=
  match algorithm, key_algorithm key, key_data key with
  | AesGcmParams iv tagLength, AesGcmKey _, SecretBytes k =>
      if negb (has_usage UsageEncrypt key) then throw InvalidAccessError
      else if 2 ^ 39 - 256 <? Z.of_nat (length data) then throw OperationError
      else if negb (valid_tag_length tagLength) then throw OperationError
      else
        let c := gcm_ctr k iv data in
        let t := take (Z.to_nat (tagLength / 8)) (gcm_tag k iv c) in
        ret (c ++ t)
  | RsaOaepParams, RsaOaepKey hash, PublicRsa pk =>
      if negb (has_usage UsageEncrypt key) then throw InvalidAccessError
      else
        let! seed := getRandomValues (digest_length hash) in
        match rsa_oaep_encrypt hash pk seed data with
        | Some c => ret c
        | None => throw OperationError
        end
  | _, _, _ => throw InvalidAccessError
  end.

(** [crypto.subtle.exportKey('raw', key)]. *)
Definition exportKey_raw (key : CryptoKey) : Platform (list byte) :=
  match key_data key with
  | SecretBytes k =>
      if key_extractable key then ret k else throw InvalidAccessError
  | PublicRsa _ => throw NotSupportedError
  end.

End WebCrypto.

(* ===================================================================== *)
(** * [class SecureBridge] (lib/secureBridge.ts) *)
(* ===================================================================== *)

Record EncryptedPayload := {
  encrypted_data : DOMString;   (* Base64 encoded ciphertext *)
  encrypted_key : DOMString;    (* Base64 encoded encrypted symmetric key *)
  iv : DOMString;               (* Base64 encoded initialization vector *)
  auth_tag : DOMString;         (* Base64 encoded authentication tag *)
}.

Section SecureBridge.
Context `{Primitives}.

(** The only field: [private publicKey: CryptoKey | null = null]. *)
Record SecureBridge := { publicKey : option CryptoKey }.

Definition new_SecureBridge : SecureBridge := {| publicKey := None |}.

Definition pem_contents (publicKeyPem : DOMString) : DOMString :=
  remove_spaces
    (String_replace
       (String_replace publicKeyPem (lit "-----BEGIN PUBLIC KEY-----") [])
       (lit "-----END PUBLIC KEY-----") []).

(** [initialize(publicKeyPem)]: the result and the object afterwards.
    [this.publicKey] is assigned only when [importKey] has resolved. *)
Definition initialize (this : SecureBridge) (publicKeyPem : DOMString)
  : Outcome Error unit * SecureBridge :=
  let attempt :=
    let pemContents := pem_contents publicKeyPem in
    obind (base64ToArrayBuffer pemContents) (fun binaryKey =>
    importKey FormatSpki binaryKey (RsaHashedImportParams SHA_256)
              false [UsageEncrypt]) in
  match attempt with
  | Ok key => (Ok tt, {| publicKey := Some key |})
  | Err error => (Err (InitializationError error), this)
  end.

(** The body of the [try] block of [encrypt]. *)
Definition encrypt_steps (publicKey : CryptoKey) (data : DOMString)
  : Platform EncryptedPayload :=
  (* Step 1: a transient AES-256 key *)
  let! symmetricKey := generateKey_AesGcm 256 true [UsageEncrypt] in
  (* Step 2: a random 96-bit IV *)
  let! iv := getRandomValues 12 in
  (* Step 3: AES-256-GCM over the encoded text *)
  let dataBuffer := TextEncoder_encode data in
  let! encryptedData :=
    subtle_encrypt (AesGcmParams iv 128) symmetricKey dataBuffer in
  let ciphertext := ArrayBuffer_slice encryptedData 0 (Some (-16)) in
  let authTag := ArrayBuffer_slice encryptedData (-16) None in
  (* Step 4: export the symmetric key *)
  let! exportedKey := exportKey_raw symmetricKey in
  (* Step 5: wrap it with RSA-OAEP *)
  let! encryptedKey := subtle_encrypt RsaOaepParams publicKey exportedKey in
  (* Step 6: package *)
  let! f_data := lift (arrayBufferToBase64 ciphertext) in
  let! f_key := lift (arrayBufferToBase64 encryptedKey) in
  let! f_iv := lift (arrayBufferToBase64 iv) in
  let! f_tag := lift (arrayBufferToBase64 authTag) in
  ret {| encrypted_data := f_data;
         encrypted_key := f_key;
         iv := f_iv;
         auth_tag := f_tag |}.

(** [encrypt(data)]. The object is not changed by it. *)
Definition encrypt (this : SecureBridge) (data : DOMString)
  : Entropy -> Outcome Error EncryptedPayload * Entropy :=
  fun e =>
    match publicKey this with
    | None => (Err NotInitializedError, e)
    | Some key =>
        match encrypt_steps key data e with
        | (Ok payload, e') => (Ok payload, e')
        | (Err error, e') => (Err (EncryptionError error), e')
        end
    end.

(** A sequence of [initialize] calls on one object: the result of each
    call, and the object at the end. *)
Fixpoint run_initializes (this : SecureBridge) (pems : list DOMString)
  : list (Outcome Error unit) * SecureBridge :=
  match pems with
  | [] => ([], this)
  | pem :: rest =>
      let (r, this') := initialize this pem in
      let (rs, final) := run_initializes this' rest in
      (r :: rs, final)
  end.

(** The key object [initialize] stores for a parsed RSA key. *)
Definition imported_key (k : RsaPublicKey) : CryptoKey :=
  {| key_algorithm := RsaOaepKey SHA_256;
     key_extractable := false;
     key_usages := [UsageEncrypt];
     key_data := PublicRsa k |}.

(** Key material is malformed when, stripped of the PEM armour, it is not
    base64 text; it is of an unsupported scheme when the bytes are not
    the [SubjectPublicKeyInfo] of an RSA key. *)
Definition malformed (publicKeyPem : DOMString) : Prop :=
  is_ok (base64ToArrayBuffer (pem_contents publicKeyPem)) = false.

Definition unsupported (publicKeyPem : DOMString) : Prop :=
  exists der,
    base64ToArrayBuffer (pem_contents publicKeyPem) = Ok der
    /\ parse_spki der = None.

(** The states an instance can be in. *)
Inductive reachable : SecureBridge -> Prop :=
| reachable_new : reachable new_SecureBridge
| reachable_initialize this pem :
    reachable this -> reachable (snd (initialize this pem)).

(** ** Several instances side by side

    Objects live in a heap; a method call names its receiver. *)
Definition call_initialize (l : nat) (pem : DOMString) (h : gmap nat SecureBridge)
  : option (Outcome Error unit) * gmap nat SecureBridge :=
  match h !! l with
  | Some this =>
      let (r, this') := initialize this pem in (Some r, <[l := this']> h)
  | None => (None, h)
  end.

Definition call_encrypt (l : nat) (data : DOMString) (h : gmap nat SecureBridge)
    (e : Entropy)
  : option (Outcome Error EncryptedPayload) * gmap nat SecureBridge * Entropy :=
  match h !! l with
  | Some this => let (r, e') := encrypt this data e in (Some r, h, e')
  | None => (None, h, e)
  end.

End SecureBridge.

(* ===================================================================== *)
(** * The hook (hooks/useSecureBridge.ts) *)
(* ===================================================================== *)

Section Hook.
Context `{Primitives}.

(** The module-level bindings: [const bridgeInstance = new SecureBridge()]
    and [let isInitialized = false]. They are one per page, shared by
    every component that uses the hook. *)
Record HookModule := {
  bridgeInstance : SecureBridge;
  isInitialized : bool;
}.

Definition module_load : HookModule :=
  {| bridgeInstance := new_SecureBridge; isInitialized := false |}.

(** The component's own state: [ready] and [error]. *)
Record HookState := {
  ready : bool;
  error : option DOMString;
}.

(** [init()] of the effect, run to its end. [response] is what
    [SecureIdentitiesService.getPublicKey()] answers when it is asked:
    the PEM text, or a failure. *)
Definition init (response : option DOMString) (g : HookModule) (c : HookState)
  : HookModule * HookState :=
  if isInitialized g then (g, {| ready := true; error := error c |})
  else
    match response with
    | Some public_key =>
        match initialize (bridgeInstance g) public_key with
        | (Ok _, b) =>
            ({| bridgeInstance := b; isInitialized := true |},
             {| ready := true; error := error c |})
        | (Err _, b) =>
            ({| bridgeInstance := b; isInitialized := isInitialized g |},
             {| ready := ready c;
                error := Some (lit "Encryption service unavailable.") |})
        end
    | None =>
        (g, {| ready := ready c;
               error := Some (lit "Encryption service unavailable.") |})
    end.

(** A component mounts with the hook: [useState(isInitialized)],
    [useState(null)], then the effect. What the component then holds is
    the shared [bridgeInstance] together with its own [ready]/[error]. *)
Definition useSecureBridge (response : option DOMString) (g : HookModule)
  : HookModule * HookState :=
  init response g {| ready := isInitialized g; error := None |}.

End Hook.

(* ===================================================================== *)
(** * The receiving side and the rotation machinery

    The sources hold the sealing side only. What follows is written from
    the design's description of the rest. *)
(* ===================================================================== *)

Global Instance byte_eq_decision : EqDecision byte := byte_eq_dec.

(** Flipping bit [i] of a byte string, bit 0 being the lowest bit of the
    first byte; out of range nothing changes. *)
Definition flip_bit_of_byte (j : nat) (b : byte) : byte :=
  Z_to_byte (Z.lxor (byte_to_Z b) (2 ^ Z.of_nat j)).

Fixpoint flip_bit (i : nat) (bs : list byte) : list byte :=
  match bs with
  | [] => []
  | b :: rest =>
      if (i <? 8)%nat then flip_bit_of_byte i b :: rest
      else b :: flip_bit (i - 8) rest
  end.

Module HybridCipher.
Section Unseal.
Context `{Primitives}.

(** Modelled from the spec: the two failures the spec gives [unseal]. *)
Inductive UnsealError :=
| AuthenticationError
| UnknownKeyVersionError.

(** Modelled from the spec: [unseal(envelope, privateKeyMaterial)], whose
    implementation is not among the sources. It "reverses wrapping then
    decryption", "fails with AuthenticationError if the tag does not
    verify" without releasing decrypted bytes, and "fails with
    UnknownKeyVersionError if no private key material is supplied". The
    tag is checked before the counter-mode pass is undone. The spec names
    no error for an envelope that does not decode or a key that does not
    unwrap; they are reported as corruption. *)
Definition unseal (envelope : EncryptedPayload)
    (privateKeyMaterial : option RsaPrivateKey)
  : Outcome UnsealError DOMString :=
  match privateKeyMaterial with
  | None => Err UnknownKeyVersionError
  | Some privateKey =>
      match base64ToArrayBuffer (encrypted_key envelope),
            base64ToArrayBuffer (iv envelope),
            base64ToArrayBuffer (encrypted_data envelope),
            base64ToArrayBuffer (auth_tag envelope) with
      | Ok wrappedKey, Ok nonce, Ok ciphertext, Ok tag =>
          match rsa_oaep_decrypt SHA_256 privateKey wrappedKey with
          | Some key =>
              if bool_decide (tag = take 16 (gcm_tag key nonce ciphertext))
              then
                match utf8_to_string (gcm_ctr key nonce ciphertext) with
                | Some plaintext => Ok plaintext
                | None => Err AuthenticationError
                end
              else Err AuthenticationError
          | None => Err AuthenticationError
          end
      | _, _, _, _ => Err AuthenticationError
      end
  end.

(** Modelled from the spec: a public and a private key are "a key pair"
    when what the one wraps the other unwraps. *)
Definition key_pair (privateKey : RsaPrivateKey) (publicKey : RsaPublicKey) : Prop :=
  forall seed message wrapped,
    rsa_oaep_encrypt SHA_256 publicKey seed message = Some wrapped ->
    rsa_oaep_decrypt SHA_256 privateKey wrapped = Some message.

(** Modelled from the spec: the material of a key version, as far as
    this core sees it, is the private key for unsealing and the PEM text
    of the public key handed to sealing processes; they are the version's
    key pair when the PEM text holds the public half. *)
Definition version_key_pair (privateKey : RsaPrivateKey) (publicKeyPem : DOMString)
  : Prop :=
  exists der k,
    base64ToArrayBuffer (pem_contents publicKeyPem) = Ok der
    /\ parse_spki der = Some k
    /\ key_pair privateKey k.

(** An envelope whose ciphertext, or whose tag, has one bit flipped. *)
Definition tamper (field : DOMString) (i : nat) : DOMString :=
  match base64ToArrayBuffer field with
  | Ok bytes => Base64.encode (map byte_to_Z (flip_bit i bytes))
  | Err _ => field
  end.

Definition flip_ciphertext_bit (i : nat) (envelope : EncryptedPayload) :=
  {| encrypted_data := tamper (encrypted_data envelope) i;
     encrypted_key := encrypted_key envelope;
     iv := iv envelope;
     auth_tag := auth_tag envelope |}.

Definition flip_tag_bit (i : nat) (envelope : EncryptedPayload) :=
  {| encrypted_data := encrypted_data envelope;
     encrypted_key := encrypted_key envelope;
     iv := iv envelope;
     auth_tag := tamper (auth_tag envelope) i |}.

End Unseal.
End HybridCipher.

Module KeyRegistry.

(** Modelled from the spec: "lifecycle state ∈ {future, active_write,
    decrypt_only, retired}"; the registry is not among the sources. *)
Inductive LifecycleState := future | active_write | decrypt_only | retired.

Global Instance LifecycleState_eq_dec : EqDecision LifecycleState.
Proof. solve_decision. Defined.

(** The order of the lifecycle. *)
Definition rank (s : LifecycleState) : nat :=
  match s with
  | future => 0 | active_write => 1 | decrypt_only => 2 | retired => 3
  end.

(** Modelled from the spec: the registry's errors in the spec's
    taxonomy. The spec asks that invalid moves be rejected and names no
    error for them; [InvalidTransitionError] stands for that. *)
Inductive RegistryError :=
| NoActiveKeyError
| RetiredKeyError
| UnknownKeyVersionError
| OutstandingReferencesError
| InvalidTransitionError.

Section Registry.
Context {Material : Type}.

(** Modelled from the spec: a key version is its "lifecycle state" and
    an "opaque handle to key material"; the registry maps identifiers
    to them. *)
Record KeyVersion := {
  state : LifecycleState;
  material : Material;
}.

Definition with_state (s : LifecycleState) (kv : KeyVersion) : KeyVersion :=
  {| state := s; material := material kv |}.

Definition is_active (kv : KeyVersion) : bool :=
  bool_decide (state kv = active_write).

(** Modelled from the spec: [resolveForWrite()] "returns the single
    active_write version; fails with NoActiveKeyError if none is
    configured". The registry itself is not among the sources. *)
Definition resolveForWrite (reg : gmap string KeyVersion)
  : Outcome RegistryError (string * Material) :=
  match filter (fun p => is_active (snd p) = true) (map_to_list reg) with
  | (v, kv) :: _ => Ok (v, material kv)
  | [] => Err NoActiveKeyError
  end.

(** Modelled from the spec: [resolveForRead(version)] "succeeds for
    active_write or decrypt_only; fails with RetiredKeyError for retired
    versions, and UnknownKeyVersionError for versions never
    registered". A version still [future] is not loaded for reads. *)
Definition resolveForRead (reg : gmap string KeyVersion) (version : string)
  : Outcome RegistryError Material :=
  match reg !! version with
  | None => Err UnknownKeyVersionError
  | Some kv =>
      match state kv with
      | active_write | decrypt_only => Ok (material kv)
      | retired => Err RetiredKeyError
      | future => Err UnknownKeyVersionError
      end
  end.

Definition demote (kv : KeyVersion) : KeyVersion :=
  if is_active kv then with_state decrypt_only kv else kv.

(** Modelled from the spec: key version rows "are created out-of-band
    ... before any record may reference them"; a new row is [future]. *)
Definition register (reg : gmap string KeyVersion) (version : string)
    (m : Material) : Outcome RegistryError (gmap string KeyVersion) :=
  match reg !! version with
  | None => Ok (<[version := {| state := future; material := m |}]> reg)
  | Some _ => Err InvalidTransitionError
  end.

(** Modelled from the spec: [promote(version)] "moves a future version
    to active_write, simultaneously demoting any prior active_write to
    decrypt_only"; other moves are rejected. *)
Definition promote (reg : gmap string KeyVersion) (version : string)
  : Outcome RegistryError (gmap string KeyVersion) :=
  match reg !! version with
  | None => Err UnknownKeyVersionError
  | Some kv =>
      match state kv with
      | future => Ok (<[version := with_state active_write kv]> (demote <$> reg))
      | _ => Err InvalidTransitionError
      end
  end.

(** Modelled from the spec: the "explicit operator-invoked rollback
    that re-promotes a decrypt_only version to active_write"; the
    version that was active becomes decrypt_only in the same step. *)
Definition rollback (reg : gmap string KeyVersion) (version : string)
  : Outcome RegistryError (gmap string KeyVersion) :=
  match reg !! version with
  | None => Err UnknownKeyVersionError
  | Some kv =>
      match state kv with
      | decrypt_only =>
          Ok (<[version := with_state active_write kv]> (demote <$> reg))
      | _ => Err InvalidTransitionError
      end
  end.

(** Modelled from the spec: [retire(version)] "moves decrypt_only to
    retired. Fails with OutstandingReferencesError unless the caller
    supplies evidence (e.g., a zero-count check ...) or forces
    retirement explicitly". *)
Definition retire (reg : gmap string KeyVersion) (version : string)
    (references : nat) (force : bool)
  : Outcome RegistryError (gmap string KeyVersion) :=
  match reg !! version with
  | None => Err UnknownKeyVersionError
  | Some kv =>
      match state kv with
      | decrypt_only =>
          if (references =? 0)%nat || force
          then Ok (<[version := with_state retired kv]> reg)
          else Err OutstandingReferencesError
      | _ => Err InvalidTransitionError
      end
  end.

(** Modelled from the spec: the operations that change a registry. *)
Inductive Operation :=
| Register (version : string) (m : Material)
| Promote (version : string)
| Rollback (version : string)
| Retire (version : string) (references : nat) (force : bool).

Definition apply (op : Operation) (reg : gmap string KeyVersion)
  : Outcome RegistryError (gmap string KeyVersion) :=
  match op with
  | Register v m => register reg v m
  | Promote v => promote reg v
  | Rollback v => rollback reg v
  | Retire v n f => retire reg v n f
  end.

(** Modelled from the spec: the registries that the operations can
    produce, starting with no version at all. *)
Inductive reachable : gmap string KeyVersion -> Prop :=
| reachable_empty : reachable ∅
| reachable_step reg op reg' :
    reachable reg -> apply op reg = Ok reg' -> reachable reg'.

(** Modelled from the spec: "at most one version is active_write at
    any instant". *)
Definition at_most_one_active (reg : gmap string KeyVersion) : Prop :=
  forall v1 v2 k1 k2,
    reg !! v1 = Some k1 -> reg !! v2 = Some k2 ->
    state k1 = active_write -> state k2 = active_write -> v1 = v2.

End Registry.
Arguments KeyVersion : clear implicits.

End KeyRegistry.

Module ReencryptionWorker.
Import KeyRegistry.

(** Modelled from the spec: what can fail for one record. The worker is
    not among the sources. *)
Inductive WorkerError :=
| KeyResolution (e : RegistryError)
| UnsealFailed
| SealFailed.

(** Modelled from the spec: what became of one selected record. A
    conditional write that touched no row is a success of its own kind
    ("treat as success, not an error"), not a failure. *)
Inductive RecordOutcome :=
| Migrated
| AlreadyMigrated
| Failed (e : WorkerError).

Definition is_success (o : RecordOutcome) : bool :=
  match o with Failed _ => false | _ => true end.

Section Worker.
(** The dependencies are passed in: key material, the sealed fields
    (ciphertext, wrapped key, nonce, tag), and the cipher. *)
Context {Material Plaintext Sealed : Type}.
Variable unseal : Material -> Sealed -> option Plaintext.
Variable seal : Material -> Plaintext -> Entropy -> option Sealed * Entropy.

(** Modelled from the spec: the persisted envelope, "ciphertext, wrapped
    symmetric key, nonce, authentication tag" (here [sealed]),
    "key-version tag, creation timestamp, last-update timestamp,
    optional re-encryption timestamp, optional migration-batch
    identifier". *)
Record RecordEnvelope := {
  sealed : Sealed;
  dek_version : string;
  created_at : Z;
  updated_at : Z;
  reencrypted_at : option Z;
  migration_batch_id : option nat;
}.

(** Modelled from the spec: the persistence collaborator's "conditional
    update of a record's versioned fields gated on an expected prior
    version value"; it reports the number of rows affected. The
    storage layer is not among the sources. *)
Definition conditional_write (store : gmap nat RecordEnvelope) (id : nat)
    (expected : string) (s : Sealed) (target : string) (now : Z) (batch : nat)
  : gmap nat RecordEnvelope * nat :=
  match store !! id with
  | Some stored =>
      if bool_decide (dek_version stored = expected) then
        (<[id := {| sealed := s;
                    dek_version := target;
                    created_at := created_at stored;
                    updated_at := updated_at stored;
                    reencrypted_at := Some now;
                    migration_batch_id := Some batch |}]> store, 1%nat)
      else (store, 0%nat)
  | None => (store, 0%nat)
  end.

(** Modelled from the spec: the selection query "returning records
    matching a given version tag, bounded by count". *)
Definition select (store : gmap nat RecordEnvelope) (source : string) (n : nat)
  : list (nat * RecordEnvelope) :=
  take n (filter (fun p => dek_version (snd p) = source) (map_to_list store)).

(** Modelled from the spec: steps 2 to 4 of the worker's algorithm for
    one selected envelope. [observed] is the envelope as the selection
    read it; [store] is the stored data at the time of the write, which
    concurrent writers may have changed since. *)
Definition process_record (reg : gmap string (KeyVersion Material))
    (now : Z) (batch : nat) (id : nat) (observed : RecordEnvelope)
    (store : gmap nat RecordEnvelope) (e : Entropy)
  : RecordOutcome * gmap nat RecordEnvelope * Entropy :=
  match resolveForRead reg (dek_version observed) with
  | Err x => (Failed (KeyResolution x), store, e)
  | Ok source_key =>
      match unseal source_key (sealed observed) with
      | None => (Failed UnsealFailed, store, e)
      | Some plaintext =>
          match resolveForWrite reg with
          | Err x => (Failed (KeyResolution x), store, e)
          | Ok (target, target_key) =>
              match seal target_key plaintext e with
              | (None, e') => (Failed SealFailed, store, e')
              | (Some s, e') =>
                  match conditional_write store id (dek_version observed)
                                          s target now batch with
                  | (store', O) => (AlreadyMigrated, store', e')
                  | (store', S _) => (Migrated, store', e')
                  end
              end
          end
      end
  end.

(** Modelled from the spec: one invocation over the selected envelopes,
    in order; every record gets its outcome. *)
Fixpoint process_batch (reg : gmap string (KeyVersion Material))
    (now : Z) (batch : nat) (selected : list (nat * RecordEnvelope))
    (store : gmap nat RecordEnvelope) (e : Entropy)
  : list (nat * RecordOutcome) * gmap nat RecordEnvelope * Entropy :=
  match selected with
  | [] => ([], store, e)
  | (id, observed) :: rest =>
      let '(o, store1, e1) := process_record reg now batch id observed store e in
      let '(os, store2, e2) := process_batch reg now batch rest store1 e1 in
      ((id, o) :: os, store2, e2)
  end.

(** Modelled from the spec: an invocation selects, then processes. *)
Definition run (reg : gmap string (KeyVersion Material)) (source : string)
    (n : nat) (now : Z) (batch : nat) (store : gmap nat RecordEnvelope)
    (e : Entropy) :=
  process_batch reg now batch (select store source n) store e.

End Worker.
Arguments RecordEnvelope : clear implicits.

End ReencryptionWorker.

(* ===================================================================== *)
(** * What is assumed of the primitives *)
(* ===================================================================== *)

(** The counter-mode pass keeps the length and is its own inverse (it adds
    a key stream); the tag has 128 bits. *)
Class PrimitiveLaws `{Primitives} : Prop := {
  gcm_ctr_length :
    forall key iv data, length (gcm_ctr key iv data) = length data;
  gcm_ctr_involutive :
    forall key iv data, gcm_ctr key iv (gcm_ctr key iv data) = data;
  gcm_tag_length :
    forall key iv c, length (gcm_tag key iv c) = 16%nat;
}.


(* ===================================================================== *)
(** * A small instance of the primitives

    Enough structure to run the model on concrete inputs; it is no
    cipher. *)
(* ===================================================================== *)

Module Toy.

Definition mask (bs : list byte) : Z :=
  fold_right (fun b acc => (byte_to_Z b + acc) mod 256) 0 bs.

(** An involution on bytes chosen by key and nonce. *)
Definition ctr (key iv data : list byte) : list byte :=
  map (fun b => Z_to_byte (mask (key ++ iv) - byte_to_Z b)) data.

Definition byte_parity (b : byte) : bool :=
  let z := byte_to_Z b in
  fold_right (fun j acc => xorb (Z.testbit z (Z.of_nat j)) acc) false (seq 0 8).

Definition parity (bs : list byte) : bool :=
  fold_right (fun b acc => xorb (byte_parity b) acc) false bs.

(** Sixteen bytes, the first of which is the parity of the ciphertext. *)
Definition tag (key iv c : list byte) : list byte :=
  (if parity c then x01 else x00) :: repeat (Z_to_byte (mask (key ++ iv))) 15.

(** "Keys" are byte strings; a DER [SubjectPublicKeyInfo] starts with a
    SEQUENCE tag. *)
Definition parse (der : list byte) : option (list byte) :=
  match der with
  | b :: _ => if bool_decide (b = x30) then Some der else None
  | [] => None
  end.

Definition wrap (h : HashAlgorithm) (pk seed message : list byte)
  : option (list byte) :=
  if bool_decide (length seed = digest_length h) && (length message <=? 190)%nat
  then Some (seed ++ map (fun b => Z_to_byte (byte_to_Z b + mask pk)) message)
  else None.

Definition unwrap (h : HashAlgorithm) (sk wrapped : list byte)
  : option (list byte) :=
  Some (map (fun b => Z_to_byte (byte_to_Z b - mask sk))
            (drop (digest_length h) wrapped)).

Definition primitives : Primitives :=
  {| RsaPublicKey := list byte;
     RsaPrivateKey := list byte;
     parse_spki := parse;
     rsa_oaep_encrypt := wrap;
     rsa_oaep_decrypt := unwrap;
     gcm_ctr := ctr;
     gcm_tag := tag |}.

(** Entropy tapes and inputs for the examples. *)
Definition zeros : Entropy := fun _ => x00.
Definition counting : Entropy := fun i => Z_to_byte (Z.of_nat i).

(** [-----BEGIN PUBLIC KEY-----\nMDA=\n-----END PUBLIC KEY-----]: the
    base64 text decodes to the two bytes 0x30 0x30. *)
Definition pem : DOMString :=
  lit "-----BEGIN PUBLIC KEY-----" ++ [10] ++ lit "MDA=" ++ [10]
  ++ lit "-----END PUBLIC KEY-----".

(** A second key: [MDE=] decodes to 0x30 0x31. *)
Definition pem' : DOMString :=
  lit "-----BEGIN PUBLIC KEY-----" ++ [10] ++ lit "MDE=" ++ [10]
  ++ lit "-----END PUBLIC KEY-----".

Definition bridge : @SecureBridge primitives :=
  snd (@initialize primitives (@new_SecureBridge primitives) pem).

Definition text : DOMString := lit "123-45-6789".

Definition empty_payload : EncryptedPayload :=
  {| encrypted_data := []; encrypted_key := []; iv := []; auth_tag := [] |}.

Definition payload_of (r : Outcome Error EncryptedPayload * Entropy)
  : EncryptedPayload :=
  match fst r with Ok p => p | Err _ => empty_payload end.

(** [text] sealed on the two tapes, and the empty text likewise. *)
Definition payload : EncryptedPayload :=
  Eval vm_compute in payload_of (@encrypt primitives bridge text counting).
Definition payload_zeros : EncryptedPayload :=
  Eval vm_compute in payload_of (@encrypt primitives bridge text zeros).
Definition empty_sealed : EncryptedPayload :=
  Eval vm_compute in payload_of (@encrypt primitives bridge [] counting).
Definition empty_sealed_zeros : EncryptedPayload :=
  Eval vm_compute in payload_of (@encrypt primitives bridge [] zeros).

(** A registry with one version, whose material is a private key and the
    PEM text of its public key. *)
Definition registry : gmap string (KeyRegistry.KeyVersion (list byte * DOMString)) :=
  {[ "dek-v1"%string :=
       {| KeyRegistry.state := KeyRegistry.active_write;
          KeyRegistry.material := ([x30; x30], pem) |} ]}.

(** A cipher for running the worker: material is a number, a sealed
    value is the plaintext tagged with the number that sealed it. *)
Definition worker_unseal (m : nat) (s : nat * nat) : option nat :=
  if (fst s =? m)%nat then Some (snd s) else None.
Definition worker_seal (m p : nat) (e : Entropy) : option (nat * nat) * Entropy :=
  (Some (m, p), e).

(** Two versions: the first was promoted, then the second. *)
Definition two_versions : gmap string (KeyRegistry.KeyVersion nat) :=
  {[ "dek-v1"%string :=
       {| KeyRegistry.state := KeyRegistry.decrypt_only;
          KeyRegistry.material := 1%nat |};
     "dek-v2"%string :=
       {| KeyRegistry.state := KeyRegistry.active_write;
          KeyRegistry.material := 2%nat |} ]}.

(** Record 7 as a selection read it under ["dek-v1"], and a store in
    which a concurrent run has already moved it to ["dek-v2"]. *)
Definition observed : ReencryptionWorker.RecordEnvelope (nat * nat) :=
  {| ReencryptionWorker.sealed := (1%nat, 42%nat);
     ReencryptionWorker.dek_version := "dek-v1";
     ReencryptionWorker.created_at := 100;
     ReencryptionWorker.updated_at := 100;
     ReencryptionWorker.reencrypted_at := None;
     ReencryptionWorker.migration_batch_id := None |}.

Definition migrated_store : gmap nat (ReencryptionWorker.RecordEnvelope (nat * nat)) :=
  {[ 7%nat :=
       {| ReencryptionWorker.sealed := (2%nat, 42%nat);
          ReencryptionWorker.dek_version := "dek-v2";
          ReencryptionWorker.created_at := 100;
          ReencryptionWorker.updated_at := 100;
          ReencryptionWorker.reencrypted_at := Some 200;
          ReencryptionWorker.migration_batch_id := Some 1%nat |} ]}.

(** Two [SecureBridge] objects: one initialized, one new. *)
Definition two_bridges : gmap nat (@SecureBridge primitives) :=
  {[ 0%nat := bridge; 1%nat := @new_SecureBridge primitives ]}.

(** The hook's module state after a first component has mounted while
    the backend served [pem]. *)
Definition after_first : @HookModule primitives :=
  fst (@useSecureBridge primitives (Some pem) (@module_load primitives)).

End Toy.

(* ===================================================================== *)
(** * Further vocabulary for the sealing side *)
(* ===================================================================== *)

(** The two armour lines [initialize] removes. *)
Definition pem_header : DOMString := lit "-----BEGIN PUBLIC KEY-----".
Definition pem_footer : DOMString := lit "-----END PUBLIC KEY-----".

(** A character of base64 text: one of the alphabet, or the padding. *)
Definition is_base64_char (c : Z) : bool :=
  match Base64.index c with
  | Some _ => true
  | None => c =? Base64.pad
  end.



(** The message the hook shows when it could not get or import a key. *)
Definition unavailable : DOMString := lit "Encryption service unavailable.".

Section KeyOfPem.
Context `{Primitives}.

(** The RSA key a PEM text carries, when [initialize] can get one out of
  it. *)
Definition key_of_pem (publicKeyPem : DOMString) : option RsaPublicKey :=
match base64ToArrayBuffer (pem_contents publicKeyPem) with
| Ok der => parse_spki der
| Err _ => None
end.

(** ** Components mounting with the hook, one after the other *)

(** Each component mounts against the module state the ones before it
  left; the list gives what the backend would answer each of them. *)
Fixpoint run_mounts (responses : list (option DOMString)) (g : HookModule)
: HookModule * list HookState :=
match responses with
| [] => (g, [])
| response :: rest =>
    let (g1, c) := useSecureBridge response g in
    let (g2, cs) := run_mounts rest g1 in
    (g2, c :: cs)
end.

(** The module states that mounts can produce after the module is loaded. *)
Inductive hook_reachable : HookModule -> Prop :=
| hook_loaded : hook_reachable module_load
| hook_mounted response g :
  hook_reachable g -> hook_reachable (fst (useSecureBridge response g)).

(** The key of the first answer that carries one. *)
Fixpoint first_key (responses : list (option DOMString)) : option RsaPublicKey :=
match responses with
| [] => None
| response :: rest =>
    match response with
    | Some public_key =>
        match key_of_pem public_key with
        | Some k => Some k
        | None => first_key rest
        end
    | None => first_key rest
    end
end.

End KeyOfPem.

(* ===================================================================== *)
(** * The form (components/SecureIdentities/AddSecureIdentity.tsx) *)
(* ===================================================================== *)

Module AddSecureIdentity.

(** [interface SecureIdentityForm]. *)
Record SecureIdentityForm := {
fullName : DOMString;
nationalId : DOMString;
}.

(** The object handed to [SecureIdentitiesService.createSecureIdentity]:
  [{ full_name: formData.fullName, ...encryptedPayload }], that is the
  name and, spread beside it, the four properties of the payload (none
  of which is called [full_name]). *)
Record CreateRequest := {
full_name : DOMString;
spread : EncryptedPayload;
}.

(** What [mutationFn] can throw: its own [Error("Encryption not ready")],
  or what [bridge.encrypt] threw. *)
Inductive MutationError :=
| EncryptionNotReady
| Thrown (e : Error).

Section Form.
Context `{Primitives}.

(** [mutationFn(formData)], with the [bridge] and [ready] the component got
  from [useSecureBridge()]. On success the result is the request given to
  the service; the service call itself is outside the model. *)
Definition mutationFn (bridge : SecureBridge) (ready : bool)
  (formData : SecureIdentityForm)
: Entropy -> Outcome MutationError CreateRequest * Entropy :=
fun e =>
  if negb ready then (Err EncryptionNotReady, e)
  else
    (* 1. Encrypt the Sensitive Data (National ID) *)
    match encrypt bridge (nationalId formData) e with
    | (Ok encryptedPayload, e') =>
        (* 2. Send payload to backend *)
        (Ok {| full_name := fullName formData;
               spread := encryptedPayload |}, e')
    | (Err error, e') => (Err (Thrown error), e')
    end.

End Form.
End AddSecureIdentity.

(* ===================================================================== *)
(** * More inputs for the examples *)
(* ===================================================================== *)

Module Samples.
Import Toy AddSecureIdentity.

(** A second national id, sealed on the same tape as [Toy.text]. *)
Definition text' : DOMString := lit "123-45-6780".
Definition payload' : EncryptedPayload :=
Eval vm_compute in payload_of (@encrypt primitives bridge text' counting).

(** A filled-in form. *)
Definition form : SecureIdentityForm :=
{| fullName := lit "Ada Lovelace"; nationalId := text |}.

End Samples.

(* ===================================================================== *)
(** * Facts about bytes *)
(* ===================================================================== *)

Lemma byte_to_Z_range (b : byte) : 0 <= byte_to_Z b < 256.
Proof.
  unfold byte_to_Z. pose proof (Byte.to_N_bounded b). lia.
Qed.

Lemma Z_to_byte_to_Z (b : byte) : Z_to_byte (byte_to_Z b) = b.
Proof.
  unfold Z_to_byte. pose proof (byte_to_Z_range b) as Hr.
  rewrite Z.mod_small by exact Hr.
  unfold byte_to_Z. rewrite N2Z.id, Byte.of_to_N. reflexivity.
Qed.

Lemma byte_to_Z_to_byte (z : Z) : byte_to_Z (Z_to_byte z) = z mod 256.
Proof.
  unfold Z_to_byte, byte_to_Z.
  assert (Hr : 0 <= z mod 256 < 256) by (apply Z.mod_pos_bound; lia).
  destruct (Byte.of_N (Z.to_N (z mod 256))) as [b|] eqn:Hb.
  - apply Byte.to_of_N in Hb. rewrite Hb. lia.
  - apply Byte.of_N_None_iff in Hb. lia.
Qed.

(** The two loops of the helpers are maps. *)
Lemma fold_left_snoc_seq {A} (f : nat -> A) (k n : nat) (acc : list A) :
  fold_left (fun acc i => acc ++ [f i]) (seq k n) acc = acc ++ map f (seq k n).
Proof.
  revert k acc. induction n as [|n IH]; intros k acc; cbn [seq fold_left map].
  - now rewrite app_nil_r.
  - rewrite IH, <- app_assoc. reflexivity.
Qed.

Lemma map_lookup_seq {A B} (g : option A -> B) (l : list A) (k : nat) (pre : list A) :
  length pre = k ->
  map (fun i => g ((pre ++ l) !! i)) (seq k (length l)) = map (fun x => g (Some x)) l.
Proof.
  revert k pre. induction l as [|x l IH]; intros k pre Hk; [reflexivity|].
  cbn [length seq map]. f_equal.
  - f_equal. subst k. apply list_lookup_middle. reflexivity.
  - specialize (IH (S k) (pre ++ [x])). rewrite <- app_assoc in IH. cbn [app] in IH.
    apply IH. rewrite length_app. cbn [length]. lia.
Qed.

Lemma binary_loop (bytes : list byte) :
  fold_left (fun binary i => binary ++ [fromCharCode (Uint8Array_get bytes i)])
            (seq 0 (length bytes)) []
  = map (fun b => fromCharCode (byte_to_Z b)) bytes.
Proof.
  rewrite fold_left_snoc_seq. cbn [app]. unfold Uint8Array_get.
  exact (map_lookup_seq
           (fun o => fromCharCode (match o with Some b => byte_to_Z b | None => 0 end))
           bytes 0 [] eq_refl).
Qed.

(** Storing into the elements [k], [k+1], ... in turn. *)
Lemma fold_left_insert_seq {A} (f : nat -> A) (n k : nat) (done rest : list A) :
  length done = k -> length rest = n ->
  fold_left (fun acc i => <[i := f i]> acc) (seq k n) (done ++ rest)
  = done ++ map f (seq k n).
Proof.
  revert k done rest. induction n as [|n IH]; intros k done rest Hk Hn.
  - destruct rest; [reflexivity | discriminate].
  - destruct rest as [|x rest]; [discriminate|].
    cbn [seq fold_left map].
    replace (<[k := f k]> (done ++ x :: rest)) with ((done ++ [f k]) ++ rest).
    + rewrite IH.
      * now rewrite <- app_assoc.
      * rewrite length_app. cbn [length]. lia.
      * cbn [length] in Hn. lia.
    + rewrite <- app_assoc. cbn [app]. subst k.
      rewrite insert_app_r_alt by lia.
      now replace (length done - length done)%nat with 0%nat by lia.
Qed.

Lemma bytes_loop (binary : DOMString) :
  fold_left (fun bytes i => <[i := Z_to_byte (charCodeAt binary i)]> bytes)
            (seq 0 (length binary)) (replicate (length binary) x00)
  = map Z_to_byte binary.
Proof.
  pose proof (fold_left_insert_seq (fun i => Z_to_byte (charCodeAt binary i))
                (length binary) 0 [] (replicate (length binary) x00) eq_refl
                (length_replicate _ _)) as Hloop.
  cbn [app] in Hloop. rewrite Hloop. unfold charCodeAt.
  exact (map_lookup_seq
           (fun o => Z_to_byte (match o with Some c => c | None => 0 end))
           binary 0 [] eq_refl).
Qed.

(* ===================================================================== *)
(** * Base64: decoding inverts encoding *)
(* ===================================================================== *)

Module Base64Facts.
Import Base64.

(** Induction three elements at a time, the way [sextets] recurses. *)
Lemma list_ind3 {A} (P : list A -> Prop) :
  P [] -> (forall a, P [a]) -> (forall a b, P [a; b]) ->
  (forall a b c l, P l -> P (a :: b :: c :: l)) ->
  forall l, P l.
Proof.
  intros H0 H1 H2 H3 l.
  assert (H : P l /\ (forall a, P (a :: l)) /\ (forall a b, P (a :: b :: l))).
  { induction l as [|x l (IHa & IHb & IHc)]; [now auto|].
    repeat split; auto. }
  apply H.
Qed.

Lemma index_alphabet i : sextet i -> index (alphabet i) = Some i.
Proof.
  unfold sextet, index, alphabet. intros Hi.
  repeat (case_match; simpl in *; try lia; try (f_equal; lia)).
Qed.

Lemma alphabet_not_whitespace i :
  sextet i -> is_ascii_whitespace (alphabet i) = false.
Proof.
  unfold sextet, is_ascii_whitespace, alphabet. intros Hi.
  repeat case_match; lia.
Qed.

Lemma alphabet_not_pad i : sextet i -> (alphabet i =? pad) = false.
Proof.
  unfold sextet, alphabet, pad. intros Hi.
  repeat case_match; lia.
Qed.

Lemma sextets_range bs : Forall octet bs -> Forall sextet (sextets bs).
Proof.
  induction bs as [| a | a b | a b c l IH] using list_ind3; intros H.
  - constructor.
  - inversion_clear H as [|? ? Ha _]. unfold octet, sextet in *. simpl.
    repeat constructor; zlia.
  - inversion_clear H as [|? ? Ha H']. inversion_clear H' as [|? ? Hb _].
    unfold octet, sextet in *. simpl. repeat constructor; zlia.
  - inversion_clear H as [|? ? Ha H']. inversion_clear H' as [|? ? Hb H''].
    inversion_clear H'' as [|? ? Hc Hl].
    unfold octet, sextet in *. cbn [sextets].
    repeat (constructor; [zlia|]). now apply IH.
Qed.

Lemma octets_sextets bs : Forall octet bs -> octets (sextets bs) = bs.
Proof.
  induction bs as [| a | a b | a b c l IH] using list_ind3; intros H.
  - reflexivity.
  - inversion_clear H as [|? ? Ha _]. unfold octet in *. simpl.
    f_equal. zlia.
  - inversion_clear H as [|? ? Ha H']. inversion_clear H' as [|? ? Hb _].
    unfold octet in *. simpl. repeat f_equal; zlia.
  - inversion_clear H as [|? ? Ha H']. inversion_clear H' as [|? ? Hb H''].
    inversion_clear H'' as [|? ? Hc Hl].
    unfold octet in *. cbn [sextets octets]. rewrite IH by assumption.
    repeat f_equal; zlia.
Qed.

Lemma indices_alphabet sx :
  Forall sextet sx -> indices (map alphabet sx) = Some sx.
Proof.
  induction 1 as [|i sx Hi _ IH]; simpl; [reflexivity|].
  now rewrite index_alphabet, IH.
Qed.

Lemma filter_whitespace_alphabet sx :
  Forall sextet sx ->
  filter (fun c => is_ascii_whitespace c = false) (map alphabet sx)
  = map alphabet sx.
Proof.
  induction 1 as [|i sx Hi _ IH]; simpl; [reflexivity|].
  rewrite filter_cons, decide_True by now apply alphabet_not_whitespace.
  now rewrite IH.
Qed.

(** What [sextets] produces, by the length of the input modulo 3. *)
Lemma sextets_length bs :
  (length (sextets bs) + length (padding (length bs)))%nat
  = (4 * ((length bs + 2) / 3))%nat
  /\ (length (sextets bs) mod 4)%nat <> 1%nat.
Proof.
  induction bs as [| a | a b | a b c l [IH1 IH2]] using list_ind3;
    try (simpl; split; [reflexivity | discriminate]).
  cbn [sextets length].
  replace (padding (S (S (S (length l))))) with (padding (length l)).
  2:{ unfold padding.
      replace (S (S (S (length l)))) with (length l + 1 * 3)%nat by lia.
      now rewrite Nat.Div0.mod_add. }
  split.
  - replace (S (S (S (length l))) + 2)%nat with ((length l + 2) + 1 * 3)%nat by lia.
    rewrite Nat.div_add by lia. lia.
  - replace (S (S (S (S (length (sextets l))))))
      with (length (sextets l) + 1 * 4)%nat by lia.
    now rewrite Nat.Div0.mod_add.
Qed.

Lemma strip_padding_encode bs :
  Forall octet bs -> strip_padding (encode bs) = map alphabet (sextets bs).
Proof.
  intros Hbs. pose proof (sextets_range bs Hbs) as Hsx.
  destruct (sextets_length bs) as [Hlen _].
  unfold strip_padding, encode.
  rewrite length_app, length_map, Hlen.
  replace (4 * ((length bs + 2) / 3))%nat with (((length bs + 2) / 3) * 4)%nat by lia.
  rewrite Nat.Div0.mod_mul. cbn [Nat.eqb].
  rewrite rev_app_distr.
  assert (Hlast : forall c r, rev (map alphabet (sextets bs)) = c :: r ->
                              (c =? pad) = false).
  { intros c r Hr.
    assert (Hin : In c (map alphabet (sextets bs))).
    { apply in_rev. rewrite Hr. now left. }
    apply in_map_iff in Hin as (i & <- & Hi).
    apply alphabet_not_pad. rewrite Forall_forall in Hsx.
    apply Hsx. now apply list_elem_of_In. }
  unfold padding.
  destruct (length bs mod 3)%nat as [|[|[|k]]]; cbn [rev app].
  - destruct (rev (map alphabet (sextets bs))) as [|c r] eqn:Hr.
    + now rewrite app_nil_r.
    + rewrite (Hlast c r eq_refl). now rewrite app_nil_r.
  - rewrite Z.eqb_refl.
    rewrite <- (rev_involutive (map alphabet (sextets bs))) at 2.
    reflexivity.
  - rewrite Z.eqb_refl.
    destruct (rev (map alphabet (sextets bs))) as [|c r] eqn:Hr.
    + rewrite <- (rev_involutive (map alphabet (sextets bs))), Hr. reflexivity.
    + rewrite (Hlast c r eq_refl).
      rewrite <- (rev_involutive (map alphabet (sextets bs))), Hr. reflexivity.
  - destruct (rev (map alphabet (sextets bs))) as [|c r] eqn:Hr.
    + now rewrite app_nil_r.
    + rewrite (Hlast c r eq_refl). now rewrite app_nil_r.
Qed.

Lemma filter_whitespace_encode bs :
  Forall octet bs ->
  filter (fun c => is_ascii_whitespace c = false) (encode bs) = encode bs.
Proof.
  intros Hbs. unfold encode. rewrite filter_app.
  rewrite filter_whitespace_alphabet by now apply sextets_range.
  f_equal. unfold padding.
  destruct (length bs mod 3)%nat as [|[|[|k]]]; reflexivity.
Qed.

Theorem decode_encode bs : Forall octet bs -> decode (encode bs) = Some bs.
Proof.
  intros Hbs. unfold decode.
  rewrite filter_whitespace_encode, strip_padding_encode by assumption.
  rewrite length_map.
  destruct (sextets_length bs) as [_ Hne].
  destruct (Nat.eqb_spec (length (sextets bs) mod 4)%nat 1%nat) as [E|_];
    [contradiction|].
  rewrite indices_alphabet by now apply sextets_range.
  now rewrite octets_sextets.
Qed.

End Base64Facts.

Lemma arrayBufferToBase64_ok (buffer : list byte) :
  arrayBufferToBase64 buffer
  = Ok (Base64.encode (map byte_to_Z buffer)).
Proof.
  unfold arrayBufferToBase64. cbv zeta. rewrite binary_loop.
  unfold btoa.
  assert (Hm : map (fun b => fromCharCode (byte_to_Z b)) buffer = map byte_to_Z buffer).
  { apply map_ext. intros b. unfold fromCharCode.
    pose proof (byte_to_Z_range b). apply Z.mod_small. lia. }
  rewrite Hm.
  replace (forallb (fun c => c <=? 255) (map byte_to_Z buffer)) with true; [reflexivity|].
  symmetry. apply forallb_forall. intros c Hc. apply in_map_iff in Hc.
  destruct Hc as (b & <- & _). pose proof (byte_to_Z_range b). lia.
Qed.

Lemma base64ToArrayBuffer_encode (buffer : list byte) :
  base64ToArrayBuffer (Base64.encode (map byte_to_Z buffer)) = Ok buffer.
Proof.
  unfold base64ToArrayBuffer, atob.
  rewrite Base64Facts.decode_encode.
  2:{ apply Forall_forall. intros c Hc. apply list_elem_of_In, in_map_iff in Hc.
      destruct Hc as (b & <- & _). apply byte_to_Z_range. }
  cbn [obind]. cbv zeta. rewrite bytes_loop.
  rewrite map_map. f_equal.
  rewrite <- (map_id buffer) at 2. apply map_ext. intros b. apply Z_to_byte_to_Z.
Qed.

(** C10. For every byte buffer [b], [arrayBufferToBase64 b] returns a
    string and [base64ToArrayBuffer] of that string returns a buffer holding
    exactly the bytes of [b]. *)
Theorem base64_helpers_round_trip (b : list byte) :
  obind (arrayBufferToBase64 b) base64ToArrayBuffer = Ok b.
Proof.
  rewrite arrayBufferToBase64_ok. cbn [obind].
  apply base64ToArrayBuffer_encode.
Qed.

(** Deciding a boolean combination of comparisons by arithmetic. *)
Ltac bool_arith :=
  repeat first
    [ rewrite andb_true_iff | rewrite andb_false_iff
    | rewrite orb_true_iff | rewrite orb_false_iff
    | rewrite negb_true_iff | rewrite negb_false_iff
    | rewrite Z.leb_le | rewrite Z.leb_gt
    | rewrite Z.ltb_lt | rewrite Z.ltb_ge
    | rewrite Z.eqb_eq | rewrite Z.eqb_neq ];
  zlia.

(** Resolve the outermost conditional whose test arithmetic decides. *)
Ltac decide_if :=
  match goal with
  | |- context [if ?c then _ else _] =>
      first [ replace c with true by (symmetry; bool_arith)
            | replace c with false by (symmetry; bool_arith) ]
  end.

Module UnicodeFacts.
Import Unicode.

Lemma utf8_encode_scalar_octets cp :
  scalar cp -> Forall Base64.octet (utf8_encode_scalar cp).
Proof.
  unfold scalar, utf8_encode_scalar, Base64.octet. intros H.
  repeat case_match; repeat constructor; zlia.
Qed.

Lemma utf8_encode_octets cps :
  Forall scalar cps -> Forall Base64.octet (utf8_encode cps).
Proof.
  induction 1 as [|cp cps Hcp _ IH]; simpl; [constructor|].
  apply Forall_app. split; [now apply utf8_encode_scalar_octets | exact IH].
Qed.

Lemma utf8_decode_encode_scalar cp rest :
  scalar cp ->
  utf8_decode (utf8_encode_scalar cp ++ rest)
  = option_map (cons cp) (utf8_decode rest).
Proof.
  unfold scalar, utf8_encode_scalar. intros H.
  destruct (Z.leb_spec cp 0x7F) as [H1|H1].
  { cbn [app utf8_decode]. decide_if. reflexivity. }
  destruct (Z.leb_spec cp 0x7FF) as [H2|H2].
  { cbn [app utf8_decode]. unfold is_continuation.
    do 3 decide_if. repeat f_equal. zlia. }
  destruct (Z.leb_spec cp 0xFFFF) as [H3|H3].
  { cbn [app utf8_decode]. unfold is_continuation.
    do 4 decide_if. repeat f_equal. zlia. }
  cbn [app utf8_decode]. unfold is_continuation.
  do 5 decide_if. repeat f_equal. zlia.
Qed.

Lemma utf8_decode_encode cps :
  Forall scalar cps -> utf8_decode (utf8_encode cps) = Some cps.
Proof.
  induction 1 as [|cp cps Hcp _ IH]; [reflexivity|].
  cbn [utf8_encode]. rewrite utf8_decode_encode_scalar by assumption.
  now rewrite IH.
Qed.

Lemma isWellFormed_cons c rest :
  isWellFormed (c :: rest)
  = if is_lead_surrogate c then
      match rest with
      | d :: rest' => is_trail_surrogate d && isWellFormed rest'
      | [] => false
      end
    else negb (is_trail_surrogate c) && (0 <=? c) && (c <? 0x10000)
         && isWellFormed rest.
Proof. reflexivity. Qed.

Lemma scalar_values_cons c rest :
  scalar_values (c :: rest)
  = if is_lead_surrogate c then
      match rest with
      | d :: rest' =>
          if is_trail_surrogate d
          then 0x10000 + (c - 0xD800) * 0x400 + (d - 0xDC00) :: scalar_values rest'
          else replacement_character :: scalar_values rest
      | [] => [replacement_character]
      end
    else if is_trail_surrogate c then replacement_character :: scalar_values rest
    else c :: scalar_values rest.
Proof. reflexivity. Qed.

(** A code unit that is no surrogate is its own scalar value. *)
Lemma bmp_unit c :
  is_lead_surrogate c = false -> is_trail_surrogate c = false ->
  (0 <=? c) && (c <? 0x10000) = true ->
  scalar c /\ utf16_encode_scalar c = [c].
Proof.
  unfold is_lead_surrogate, is_trail_surrogate, scalar, utf16_encode_scalar.
  intros Hl Ht Hr. split.
  - revert Hl Ht Hr. bool_arith.
  - replace (c <? 0x10000) with true by (symmetry; revert Hr; bool_arith).
    reflexivity.
Qed.

(** A surrogate pair is one supplementary scalar value. *)
Lemma surrogate_pair c d :
  is_lead_surrogate c = true -> is_trail_surrogate d = true ->
  let cp := 0x10000 + (c - 0xD800) * 0x400 + (d - 0xDC00) in
  scalar cp /\ utf16_encode_scalar cp = [c; d].
Proof.
  intros Hl Ht cp. subst cp.
  unfold is_lead_surrogate, is_trail_surrogate in *.
  unfold scalar, utf16_encode_scalar. split.
  - revert Hl Ht. bool_arith.
  - replace (0x10000 + (c - 0xD800) * 0x400 + (d - 0xDC00) <? 0x10000)
      with false by (symmetry; revert Hl Ht; bool_arith).
    f_equal; [revert Hl Ht; bool_arith|].
    f_equal. revert Hl Ht. bool_arith.
Qed.

(** Well-formed strings: every step of [scalar_values] yields a scalar
    value, and re-encoding it gives back the code units it was read
    from. *)
Lemma wellFormed_both s :
  (isWellFormed s = true ->
     Forall scalar (scalar_values s) /\ utf16_encode (scalar_values s) = s)
  /\ (forall c, isWellFormed (c :: s) = true ->
     Forall scalar (scalar_values (c :: s))
     /\ utf16_encode (scalar_values (c :: s)) = c :: s).
Proof.
  induction s as [|d s [IH1 IH2]].
  - split; [intros _; split; [constructor | reflexivity]|].
    intros c. rewrite isWellFormed_cons, scalar_values_cons.
    destruct (is_lead_surrogate c) eqn:Hl; [discriminate|].
    destruct (is_trail_surrogate c) eqn:Ht; [discriminate|].
    cbn [negb andb isWellFormed]. rewrite andb_true_r. intros Hr.
    destruct (bmp_unit c Hl Ht Hr) as [Hs He].
    split; [constructor; [exact Hs | constructor]|].
    cbn [scalar_values utf16_encode]. now rewrite He.
  - split; [exact (IH2 d)|].
    intros c. rewrite isWellFormed_cons, scalar_values_cons.
    destruct (is_lead_surrogate c) eqn:Hl.
    + destruct (is_trail_surrogate d) eqn:Ht; [|discriminate].
      cbn [andb]. intros Hs. destruct (IH1 Hs) as [Hf He].
      destruct (surrogate_pair c d Hl Ht) as [Hsc Hen].
      split; [constructor; assumption|].
      cbn [utf16_encode]. now rewrite He, Hen.
    + destruct (is_trail_surrogate c) eqn:Ht; [discriminate|].
      cbn [negb andb]. intros Hr.
      apply andb_true_iff in Hr as [Hr Hs].
      destruct (IH2 d Hs) as [Hf He].
      destruct (bmp_unit c Hl Ht Hr) as [Hsc Hen].
      split; [constructor; assumption|].
      cbn [utf16_encode]. now rewrite He, Hen.
Qed.

Lemma scalar_values_scalar s :
  isWellFormed s = true -> Forall scalar (scalar_values s).
Proof. intros H. now apply wellFormed_both. Qed.

Lemma utf16_encode_scalar_values s :
  isWellFormed s = true -> utf16_encode (scalar_values s) = s.
Proof. intros H. now apply wellFormed_both. Qed.

End UnicodeFacts.

Lemma map_byte_to_Z_to_byte (zs : list Z) :
  Forall Base64.octet zs -> map byte_to_Z (map Z_to_byte zs) = zs.
Proof.
  induction 1 as [|z zs Hz _ IH]; [reflexivity|].
  cbn [map]. rewrite IH, byte_to_Z_to_byte.
  unfold Base64.octet in Hz. now rewrite Z.mod_small.
Qed.

(** Text survives its UTF-8 bytes when no surrogate stands alone. *)
Theorem utf8_to_string_encode (s : DOMString) :
  Unicode.isWellFormed s = true ->
  utf8_to_string (TextEncoder_encode s) = Some s.
Proof.
  intros Hwf. unfold utf8_to_string, TextEncoder_encode.
  pose proof (UnicodeFacts.scalar_values_scalar s Hwf) as Hsc.
  rewrite map_byte_to_Z_to_byte by now apply UnicodeFacts.utf8_encode_octets.
  rewrite UnicodeFacts.utf8_decode_encode by assumption.
  cbn [option_map]. now rewrite UnicodeFacts.utf16_encode_scalar_values.
Qed.

(** A lone surrogate is encoded as U+FFFD is. *)
Lemma TextEncoder_lone_surrogate :
  TextEncoder_encode [0xD800] = TextEncoder_encode [0xFFFD].
Proof. reflexivity. Qed.

(* ===================================================================== *)
(** * The small instance satisfies what is assumed of the primitives *)
(* ===================================================================== *)

Module ToyFacts.
Import Toy.

Lemma Z_to_byte_mod (z : Z) : Z_to_byte (z mod 256) = Z_to_byte z.
Proof. unfold Z_to_byte. now rewrite Z.mod_mod by lia. Qed.

Lemma Z_to_byte_congr (x y : Z) : x mod 256 = y mod 256 -> Z_to_byte x = Z_to_byte y.
Proof. intros Heq. now rewrite <- (Z_to_byte_mod x), Heq, Z_to_byte_mod. Qed.

Lemma ctr_byte_involutive (m : Z) (b : byte) :
  Z_to_byte (m - byte_to_Z (Z_to_byte (m - byte_to_Z b))) = b.
Proof.
  rewrite byte_to_Z_to_byte. rewrite <- (Z_to_byte_to_Z b) at 2.
  apply Z_to_byte_congr. pose proof (byte_to_Z_range b). zlia.
Qed.

Lemma wrap_byte_inverse (m : Z) (b : byte) :
  Z_to_byte (byte_to_Z (Z_to_byte (byte_to_Z b + m)) - m) = b.
Proof.
  rewrite byte_to_Z_to_byte. rewrite <- (Z_to_byte_to_Z b) at 2.
  apply Z_to_byte_congr. pose proof (byte_to_Z_range b). zlia.
Qed.



Lemma laws : @PrimitiveLaws primitives.
Proof.
  split; cbn [gcm_ctr gcm_tag primitives].
  - intros key iv data. unfold ctr. apply length_map.
  - intros key iv data. unfold ctr. rewrite map_map.
    rewrite <- (map_id data) at 2. apply map_ext. intros b.
    apply ctr_byte_involutive.
  - intros key iv c. reflexivity.
Qed.


(** In the small instance a key is its own counterpart. *)
Lemma key_pair_same (k : list byte) :
  @HybridCipher.key_pair primitives k k.
Proof.
  intros seed message wrapped. cbn [rsa_oaep_encrypt rsa_oaep_decrypt primitives].
  unfold wrap, unwrap.
  destruct (bool_decide (length seed = digest_length SHA_256)) eqn:Hs; [|discriminate].
  apply bool_decide_eq_true in Hs.
  destruct (length message <=? 190)%nat; [|discriminate].
  cbn [andb]. intros [= <-]. rewrite <- Hs, drop_app_length, map_map.
  f_equal. rewrite <- (map_id message) at 2. apply map_ext. intros b.
  apply wrap_byte_inverse.
Qed.

Lemma pem_key_pair :
  @HybridCipher.version_key_pair primitives [x30; x30] pem.
Proof.
  exists [x30; x30], [x30; x30]. repeat split.
  apply key_pair_same.
Qed.

Lemma bridge_reachable : @reachable primitives bridge.
Proof. apply reachable_initialize, reachable_new. Qed.

Lemma bridge_publicKey :
  @publicKey primitives bridge = Some (@imported_key primitives [x30; x30]).
Proof. reflexivity. Qed.

End ToyFacts.

(* ===================================================================== *)
(** * Slices *)
(* ===================================================================== *)

Lemma ArrayBuffer_slice_front (c t : list byte) :
  length t = 16%nat -> ArrayBuffer_slice (c ++ t) 0 (Some (-16)) = c.
Proof.
  intros Ht. unfold ArrayBuffer_slice, relative_index.
  rewrite length_app, Ht.
  set (len := Z.of_nat (length c + 16)).
  replace (0 <? 0) with false by reflexivity.
  replace (-16 <? 0) with true by reflexivity.
  replace (Z.to_nat (Z.min 0 len)) with 0%nat by lia.
  replace (Z.to_nat (Z.max (Z.max (len + -16) 0 - Z.min 0 len) 0))
    with (length c) by lia.
  cbn [drop]. apply take_app_length.
Qed.

Lemma ArrayBuffer_slice_back (c t : list byte) :
  length t = 16%nat -> ArrayBuffer_slice (c ++ t) (-16) None = t.
Proof.
  intros Ht. unfold ArrayBuffer_slice, relative_index.
  rewrite length_app, Ht.
  set (len := Z.of_nat (length c + 16)).
  replace (-16 <? 0) with true by reflexivity.
  replace (Z.to_nat (Z.max (len + -16) 0)) with (length c) by lia.
  replace (Z.to_nat (Z.max (len - Z.max (len + -16) 0) 0))
    with (length t) by lia.
  rewrite drop_app_length. apply firstn_all.
Qed.

(* ===================================================================== *)
(** * Base64 text determines the bytes *)
(* ===================================================================== *)

Lemma encode_bytes_inj (a b : list byte) :
  Base64.encode (map byte_to_Z a) = Base64.encode (map byte_to_Z b) -> a = b.
Proof.
  intros Heq. apply (f_equal base64ToArrayBuffer) in Heq.
  rewrite !base64ToArrayBuffer_encode in Heq. now injection Heq.
Qed.

(* ===================================================================== *)
(** * The steps of [encrypt] *)
(* ===================================================================== *)

Section EncryptSteps.
Context `{Primitives}.

Lemma map_shift_seq_from (e : Entropy) (k a n : nat) :
  map (fun i => e (k + i)%nat) (seq a n) = map e (seq (k + a) n).
Proof.
  revert a. induction n as [|n IH]; intros a; [reflexivity|].
  cbn [seq map]. rewrite IH.
  replace (k + S a)%nat with (S (k + a)) by lia. reflexivity.
Qed.

Lemma map_shift_seq (e : Entropy) (k n : nat) :
  map (fun i => e (k + i)%nat) (seq 0 n) = map e (seq k n).
Proof. rewrite map_shift_seq_from. now rewrite Nat.add_0_r. Qed.

Lemma generateKey_AesGcm_256 (e : Entropy) :
  generateKey_AesGcm 256 true [UsageEncrypt] e
  = (Ok {| key_algorithm := AesGcmKey 256;
           key_extractable := true;
           key_usages := [UsageEncrypt];
           key_data := SecretBytes (drawn_key e) |},
     fun i => e (32 + i)%nat).
Proof. reflexivity. Qed.

Lemma subtle_encrypt_AesGcm_128 (k nonce data : list byte) (e : Entropy) :
  subtle_encrypt (AesGcmParams nonce 128)
    {| key_algorithm := AesGcmKey 256; key_extractable := true;
       key_usages := [UsageEncrypt]; key_data := SecretBytes k |} data e
  = if 2 ^ 39 - 256 <? Z.of_nat (length data) then (Err OperationError, e)
    else
      let c := gcm_ctr k nonce data in
      (Ok (c ++ take 16 (gcm_tag k nonce c)), e).
Proof.
  unfold subtle_encrypt. cbn [key_algorithm key_data has_usage key_usages].
  cbn [existsb KeyUsage_eqb orb negb].
  destruct (2 ^ 39 - 256 <? Z.of_nat (length data)); reflexivity.
Qed.

Lemma subtle_encrypt_RsaOaep_ok (key : CryptoKey) (data c : list byte)
    (e e' : Entropy) :
  subtle_encrypt RsaOaepParams key data e = (Ok c, e') ->
  exists hash pk,
    key_algorithm key = RsaOaepKey hash /\ key_data key = PublicRsa pk
    /\ has_usage UsageEncrypt key = true
    /\ rsa_oaep_encrypt hash pk (map e (seq 0 (digest_length hash))) data = Some c
    /\ e' = (fun i => e (digest_length hash + i)%nat).
Proof.
  unfold subtle_encrypt.
  destruct (key_algorithm key) as [hash|len] eqn:Ha; [|discriminate].
  destruct (key_data key) as [pk|k] eqn:Hd; [|discriminate].
  destruct (has_usage UsageEncrypt key) eqn:Hu; [|discriminate].
  cbn [negb]. unfold pbind, getRandomValues, draw.
  destruct (rsa_oaep_encrypt hash pk _ data) as [c'|] eqn:Hw; [|discriminate].
  unfold ret. intros [= <- <-]. exists hash, pk. repeat split; assumption.
Qed.
End EncryptSteps.

(* ===================================================================== *)
(** * [initialize] *)
(* ===================================================================== *)

Section Initialize.
Context `{Primitives}.

Lemma importKey_spki (der : list byte) :
  importKey FormatSpki der (RsaHashedImportParams SHA_256) false [UsageEncrypt]
  = match parse_spki der with
    | Some k => Ok (imported_key k)
    | None => Err DataError
    end.
Proof. reflexivity. Qed.

(** What [initialize] does, by cases on the key material. *)
Lemma initialize_cases (this : SecureBridge) (pem : DOMString) :
  match base64ToArrayBuffer (pem_contents pem) with
  | Err x => initialize this pem = (Err (InitializationError x), this)
  | Ok der =>
      match parse_spki der with
      | Some k => initialize this pem = (Ok tt, {| publicKey := Some (imported_key k) |})
      | None => initialize this pem = (Err (InitializationError DataError), this)
      end
  end.
Proof.
  unfold initialize.
  destruct (base64ToArrayBuffer (pem_contents pem)) as [der|x]; cbn [obind].
  - rewrite importKey_spki. destruct (parse_spki der); reflexivity.
  - reflexivity.
Qed.


(** Every state an instance reaches holds no key or an imported one. *)
Lemma reachable_publicKey (this : SecureBridge) :
  reachable this ->
  publicKey this = None \/ exists k, publicKey this = Some (imported_key k).
Proof.
  induction 1 as [|this pem _ IH]; [now left|].
  pose proof (initialize_cases this pem) as Hc.
  destruct (base64ToArrayBuffer (pem_contents pem)) as [der|x].
  - destruct (parse_spki der) as [k|]; rewrite Hc; cbn [snd].
    + right. now exists k.
    + exact IH.
  - rewrite Hc. exact IH.
Qed.

Lemma encrypt_NotInitialized (this : SecureBridge) data e :
  fst (encrypt this data e) = Err NotInitializedError <-> publicKey this = None.
Proof.
  unfold encrypt. destruct (publicKey this) as [key|].
  - destruct (encrypt_steps key data e) as [[p|x] e']; cbn [fst];
      split; discriminate.
  - cbn [fst]. split; reflexivity.
Qed.

Lemma run_initializes_publicKey (pems : list DOMString) (this : SecureBridge) :
  publicKey (snd (run_initializes this pems)) = None
  <-> publicKey this = None
      /\ Forall (fun r => is_ok r = false) (fst (run_initializes this pems)).
Proof.
  revert this. induction pems as [|pem pems IH]; intros this.
  - cbn [run_initializes fst snd]. split; [intros Hn; split; [exact Hn | constructor]|].
    now intros [Hn _].
  - cbn [run_initializes].
    pose proof (initialize_cases this pem) as Hc.
    destruct (initialize this pem) as [r this'] eqn:Hi.
    specialize (IH this').
    destruct (run_initializes this' pems) as [rs final]. cbn [fst snd] in *.
    rewrite IH, Forall_cons.
    destruct (base64ToArrayBuffer (pem_contents pem)) as [der|x].
    + destruct (parse_spki der) as [k|]; injection Hc as -> ->; cbn [is_ok publicKey].
      * split; [intros [Hk _]; discriminate | intros (_ & Hk & _); discriminate].
      * tauto.
    + injection Hc as -> ->. cbn [is_ok]. tauto.
Qed.

(** C5. After any sequence of [initialize] calls on a new object,
    [encrypt] fails with the not-initialized error if and only if none of
    those calls succeeded; once one has succeeded it never does. *)
Theorem encrypt_NotInitialized_iff_no_successful_initialize
    (pems : list DOMString) (data : DOMString) (e : Entropy) :
  fst (encrypt (snd (run_initializes new_SecureBridge pems)) data e)
    = Err NotInitializedError
  <-> Forall (fun r => is_ok r = false)
             (fst (run_initializes new_SecureBridge pems)).
Proof.
  rewrite encrypt_NotInitialized, run_initializes_publicKey.
  cbn [new_SecureBridge publicKey]. tauto.
Qed.

End Initialize.

(* ===================================================================== *)
(** * [encrypt] *)
(* ===================================================================== *)

Section Encrypt.
Context `{PrimitiveLaws}.

(** A successful run of the [try] block, read backwards. *)
Lemma encrypt_steps_ok key data e payload e' :
  encrypt_steps key data e = (Ok payload, e') ->
  exists hash pk wrapped,
    key_algorithm key = RsaOaepKey hash /\ key_data key = PublicRsa pk
    /\ has_usage UsageEncrypt key = true
    /\ rsa_oaep_encrypt hash pk (drawn_seed hash e) (drawn_key e) = Some wrapped
    /\ (let c := gcm_ctr (drawn_key e) (drawn_nonce e) (TextEncoder_encode data) in
        payload =
        {| encrypted_data := Base64.encode (map byte_to_Z c);
           encrypted_key := Base64.encode (map byte_to_Z wrapped);
           iv := Base64.encode (map byte_to_Z (drawn_nonce e));
           auth_tag := Base64.encode (map byte_to_Z
                         (take 16 (gcm_tag (drawn_key e) (drawn_nonce e) c))) |})
    /\ (forall i, e' i = e (44 + digest_length hash + i)%nat).
Proof.
  unfold encrypt_steps.
  unfold pbind at 1. rewrite generateKey_AesGcm_256.
  unfold pbind at 1. unfold getRandomValues at 1. unfold draw at 1.
  rewrite map_shift_seq. fold (drawn_nonce e).
  unfold pbind at 1. rewrite subtle_encrypt_AesGcm_128.
  destruct (2 ^ 39 - 256 <? _); [discriminate|].
  cbv zeta.
  set (c := gcm_ctr (drawn_key e) (drawn_nonce e) (TextEncoder_encode data)).
  set (t := take 16 (gcm_tag (drawn_key e) (drawn_nonce e) c)).
  assert (Ht : length t = 16%nat).
  { subst t. rewrite length_take, gcm_tag_length. reflexivity. }
  cbv beta iota.
  rewrite ArrayBuffer_slice_front, ArrayBuffer_slice_back by exact Ht.
  unfold pbind at 1. unfold exportKey_raw at 1. cbn [key_data key_extractable].
  unfold ret at 1. cbv beta iota.
  unfold pbind at 1.
  destruct (subtle_encrypt RsaOaepParams key (drawn_key e) _)
    as [[wrapped|x] e2] eqn:Hw; [|discriminate].
  apply subtle_encrypt_RsaOaep_ok in Hw
    as (hash & pk & Ha & Hd & Hu & Hw & He2).
  rewrite !arrayBufferToBase64_ok.
  unfold pbind, lift, ret. cbv beta iota.
  intros [= <- <-].
  exists hash, pk, wrapped.
  assert (Hseed : map (fun i => e (32 + (12 + i))%nat) (seq 0 (digest_length hash))
                  = drawn_seed hash e).
  { unfold drawn_seed. rewrite <- (map_shift_seq e 44).
    apply map_ext. intros i. f_equal. }
  rewrite Hseed in Hw.
  repeat split; try assumption.
  intros i. rewrite He2. f_equal; lia.
Qed.

(** [encrypt] succeeds on an initialized object whenever the text is
    within the size AES-GCM takes and the 32-byte key fits the RSA
    modulus. *)
Lemma encrypt_succeeds this k data e wrapped :
  publicKey this = Some (imported_key k) ->
  Z.of_nat (length (TextEncoder_encode data)) <= 2 ^ 39 - 256 ->
  rsa_oaep_encrypt SHA_256 k (drawn_seed SHA_256 e) (drawn_key e) = Some wrapped ->
  is_ok (fst (encrypt this data e)) = true.
Proof.
  intros Hk Hlen Hw. unfold encrypt. rewrite Hk. unfold encrypt_steps.
  unfold pbind at 1. rewrite generateKey_AesGcm_256.
  unfold pbind at 1. unfold getRandomValues at 1. unfold draw at 1.
  rewrite map_shift_seq. fold (drawn_nonce e).
  unfold pbind at 1. rewrite subtle_encrypt_AesGcm_128.
  destruct (Z.ltb_spec (2 ^ 39 - 256) (Z.of_nat (length (TextEncoder_encode data))))
    as [Hgt|_]; [lia|].
  cbv zeta beta iota.
  unfold pbind at 1. unfold exportKey_raw at 1. cbn [key_data key_extractable].
  unfold ret at 1. cbv beta iota.
  unfold pbind at 1. unfold subtle_encrypt at 1.
  cbn [imported_key key_algorithm key_data has_usage key_usages existsb
       KeyUsage_eqb orb negb].
  unfold pbind at 1. unfold getRandomValues at 1. unfold draw at 1.
  assert (Hseed : map (fun i => e (32 + (12 + i))%nat) (seq 0 (digest_length SHA_256))
                  = drawn_seed SHA_256 e).
  { unfold drawn_seed. rewrite <- (map_shift_seq e 44).
    apply map_ext. intros i. f_equal. }
  rewrite Hseed, Hw. unfold ret at 1. cbv beta iota.
  rewrite !arrayBufferToBase64_ok. reflexivity.
Qed.

(** The same for [encrypt] on an object holding an imported key. *)
Lemma encrypt_ok this k data e payload e' :
  publicKey this = Some (imported_key k) ->
  encrypt this data e = (Ok payload, e') ->
  exists wrapped,
    rsa_oaep_encrypt SHA_256 k (drawn_seed SHA_256 e) (drawn_key e) = Some wrapped
    /\ (let c := gcm_ctr (drawn_key e) (drawn_nonce e) (TextEncoder_encode data) in
        payload =
        {| encrypted_data := Base64.encode (map byte_to_Z c);
           encrypted_key := Base64.encode (map byte_to_Z wrapped);
           iv := Base64.encode (map byte_to_Z (drawn_nonce e));
           auth_tag := Base64.encode (map byte_to_Z
                         (gcm_tag (drawn_key e) (drawn_nonce e) c)) |})
    /\ (forall i, e' i = e (76 + i)%nat).
Proof.
  intros Hk. unfold encrypt. rewrite Hk.
  destruct (encrypt_steps (imported_key k) data e) as [[p|x] e1] eqn:Hs;
    [|discriminate].
  intros [= <- <-].
  apply encrypt_steps_ok in Hs as (hash & pk & wrapped & Ha & Hd & _ & Hw & Hp & He).
  cbn [imported_key key_algorithm key_data] in Ha, Hd.
  injection Ha as <-. injection Hd as <-.
  exists wrapped. split; [exact Hw|]. split; [|exact He].
  cbv zeta in Hp |- *. rewrite Hp.
  rewrite (firstn_all2 (n := 16)); [reflexivity|].
  rewrite gcm_tag_length. lia.
Qed.

(** C4. A successful [encrypt] on an initialized cipher returns: the
    AES-256-GCM encryption of the UTF-8 text under the 32-byte key and
    12-byte nonce just drawn, split so that [encrypted_data] decodes to
    the ciphertext without the tag and [auth_tag] decodes to exactly the
    16-byte tag; the nonce in [iv]; and in [encrypted_key] the drawn key
    wrapped by RSA-OAEP with SHA-256 under the imported public key. *)
Theorem encrypt_payload_structure
    (this : SecureBridge) (data : DOMString) (e e' : Entropy)
    (payload : EncryptedPayload) :
  reachable this ->
  encrypt this data e = (Ok payload, e') ->
  exists k wrapped,
    publicKey this = Some (imported_key k)
    /\ length (drawn_key e) = 32%nat
    /\ length (drawn_nonce e) = 12%nat
    /\ base64ToArrayBuffer (encrypted_data payload)
       = Ok (gcm_ctr (drawn_key e) (drawn_nonce e) (TextEncoder_encode data))
    /\ base64ToArrayBuffer (auth_tag payload)
       = Ok (gcm_tag (drawn_key e) (drawn_nonce e)
               (gcm_ctr (drawn_key e) (drawn_nonce e) (TextEncoder_encode data)))
    /\ length (gcm_tag (drawn_key e) (drawn_nonce e)
                 (gcm_ctr (drawn_key e) (drawn_nonce e) (TextEncoder_encode data)))
       = 16%nat
    /\ base64ToArrayBuffer (iv payload) = Ok (drawn_nonce e)
    /\ rsa_oaep_encrypt SHA_256 k (drawn_seed SHA_256 e) (drawn_key e) = Some wrapped
    /\ base64ToArrayBuffer (encrypted_key payload) = Ok wrapped.
Proof.
  intros Hr He.
  destruct (reachable_publicKey this Hr) as [Hn | [k Hk]].
  { unfold encrypt in He. rewrite Hn in He. discriminate. }
  destruct (encrypt_ok this k data e payload e' Hk He) as (wrapped & Hw & Hp & _).
  cbv zeta in Hp. subst payload. cbn [encrypted_data encrypted_key iv auth_tag].
  exists k, wrapped.
  rewrite !base64ToArrayBuffer_encode, gcm_tag_length.
  unfold drawn_key, drawn_nonce. rewrite !length_map, !length_seq.
  repeat split; assumption.
Qed.

(** The ciphertext field is as long as the text's bytes need; for the
    empty text it is the empty string. *)
Lemma encrypt_empty_ciphertext this e payload e' :
  reachable this ->
  encrypt this [] e = (Ok payload, e') -> encrypted_data payload = [].
Proof.
  intros Hr He.
  destruct (reachable_publicKey this Hr) as [Hn | [k Hk]].
  { unfold encrypt in He. rewrite Hn in He. discriminate. }
  destruct (encrypt_ok this k [] e payload e' Hk He) as (wrapped & _ & Hp & _).
  cbv zeta in Hp. subst payload. cbn [encrypted_data].
  pose proof (gcm_ctr_length (drawn_key e) (drawn_nonce e) (TextEncoder_encode []))
    as Hl.
  destruct (gcm_ctr (drawn_key e) (drawn_nonce e) (TextEncoder_encode []));
    [reflexivity | discriminate].
Qed.

(** C3, as amended. Two calls of [encrypt] on the same text each draw a
    256-bit key and a 96-bit nonce from the entropy they are given, and a
    call started on the tape another call left behind reads its key and
    nonce from positions that call did not read; the [iv] fields differ
    whenever the drawn nonces differ, and the wrapped keys differ whenever
    the drawn keys differ and the public key has a private counterpart. *)
Theorem encrypt_twice_differs
    (this : SecureBridge) (k : RsaPublicKey) (sk : RsaPrivateKey)
    (data : DOMString) (e1 e2 e1' e2' : Entropy) (p1 p2 : EncryptedPayload) :
  publicKey this = Some (imported_key k) ->
  HybridCipher.key_pair sk k ->
  encrypt this data e1 = (Ok p1, e1') ->
  encrypt this data e2 = (Ok p2, e2') ->
  base64ToArrayBuffer (iv p1) = Ok (drawn_nonce e1)
  /\ base64ToArrayBuffer (iv p2) = Ok (drawn_nonce e2)
  /\ length (drawn_key e1) = 32%nat /\ length (drawn_nonce e1) = 12%nat
  /\ drawn_key e1' = map e1 (seq 76 32)
  /\ drawn_nonce e1' = map e1 (seq 108 12)
  /\ (drawn_nonce e1 <> drawn_nonce e2 -> iv p1 <> iv p2)
  /\ (drawn_key e1 <> drawn_key e2 -> encrypted_key p1 <> encrypted_key p2).
Proof.
  intros Hk Hpair H1 H2.
  destruct (encrypt_ok this k data e1 p1 e1' Hk H1) as (w1 & Hw1 & Hp1 & He1).
  destruct (encrypt_ok this k data e2 p2 e2' Hk H2) as (w2 & Hw2 & Hp2 & He2).
  cbv zeta in Hp1, Hp2. subst p1 p2. cbn [iv encrypted_key].
  rewrite !base64ToArrayBuffer_encode.
  assert (Hshift : forall a n, map e1' (seq a n) = map e1 (seq (76 + a) n)).
  { intros a n. rewrite <- map_shift_seq_from. apply map_ext. exact He1. }
  split; [reflexivity|]. split; [reflexivity|].
  split; [unfold drawn_key; now rewrite length_map, length_seq|].
  split; [unfold drawn_nonce; now rewrite length_map, length_seq|].
  split; [apply Hshift|]. split; [apply Hshift|]. split.
  - intros Hne Heq. apply Hne. now apply encode_bytes_inj.
  - intros Hne Heq. apply Hne. apply encode_bytes_inj in Heq. subst w2.
    apply Hpair in Hw1, Hw2. congruence.
Qed.

End Encrypt.

(* ===================================================================== *)
(** * Flipping a bit *)
(* ===================================================================== *)


Lemma flip_bit_length (i : nat) (bs : list byte) :
  length (flip_bit i bs) = length bs.
Proof.
  revert i. induction bs as [|b bs IH]; intros i; [reflexivity|].
  cbn [flip_bit]. destruct (i <? 8)%nat; cbn [length]; [reflexivity|].
  now rewrite IH.
Qed.


(* ===================================================================== *)
(** * Unsealing what was sealed *)
(* ===================================================================== *)

Section Unseal.
Context `{PrimitiveLaws}.
Import HybridCipher.

(** [unseal] on an envelope given by its decoded fields. *)
Lemma unseal_fields (wrapped nonce c t : list byte) (sk : RsaPrivateKey) :
  unseal {| encrypted_data := Base64.encode (map byte_to_Z c);
            encrypted_key := Base64.encode (map byte_to_Z wrapped);
            iv := Base64.encode (map byte_to_Z nonce);
            auth_tag := Base64.encode (map byte_to_Z t) |} (Some sk)
  = match rsa_oaep_decrypt SHA_256 sk wrapped with
    | Some key =>
        if bool_decide (t = gcm_tag key nonce c) then
          match utf8_to_string (gcm_ctr key nonce c) with
          | Some plaintext => Ok plaintext
          | None => Err AuthenticationError
          end
        else Err AuthenticationError
    | None => Err AuthenticationError
    end.
Proof.
  unfold unseal. cbn [encrypted_data encrypted_key iv auth_tag].
  rewrite !base64ToArrayBuffer_encode.
  destruct (rsa_oaep_decrypt SHA_256 sk wrapped) as [key|]; [|reflexivity].
  rewrite (firstn_all2 (n := 16)); [reflexivity|].
  rewrite gcm_tag_length. lia.
Qed.


Lemma unseal_sealed this k sk data e payload e' :
  publicKey this = Some (imported_key k) ->
  key_pair sk k ->
  encrypt this data e = (Ok payload, e') ->
  unseal payload (Some sk)
  = match utf8_to_string (TextEncoder_encode data) with
    | Some plaintext => Ok plaintext
    | None => Err AuthenticationError
    end.
Proof.
  intros Hk Hpair He.
  destruct (encrypt_ok this k data e payload e' Hk He) as (wrapped & Hw & Hp & _).
  cbv zeta in Hp. subst payload. rewrite unseal_fields.
  rewrite (Hpair _ _ _ Hw).
  rewrite bool_decide_eq_true_2 by reflexivity.
  now rewrite gcm_ctr_involutive.
Qed.

(** C1, as amended. For every plaintext string [P] in which no surrogate
    stands alone, and every key version [V] that resolves for read to a
    key pair: unsealing, with the private key of [V], the envelope that
    sealing [P] under the public key of [V] produced returns exactly
    [P]. *)
Theorem seal_unseal_round_trip
    (reg : gmap string (KeyRegistry.KeyVersion (RsaPrivateKey * DOMString)))
    (V : string) (sk : RsaPrivateKey) (pem : DOMString)
    (P : DOMString) (e e' : Entropy) (payload : EncryptedPayload) :
  KeyRegistry.resolveForRead reg V = Ok (sk, pem) ->
  version_key_pair sk pem ->
  Unicode.isWellFormed P = true ->
  encrypt (snd (initialize new_SecureBridge pem)) P e = (Ok payload, e') ->
  unseal payload (Some sk) = Ok P.
Proof.
  intros _ (der & k & Hd & Hp & Hpair) Hwf He.
  pose proof (initialize_cases new_SecureBridge pem) as Hi.
  rewrite Hd, Hp in Hi. rewrite Hi in He. cbn [snd] in He.
  rewrite (unseal_sealed {| publicKey := Some (imported_key k) |} k sk
             P e payload e' eq_refl Hpair He).
  now rewrite utf8_to_string_encode.
Qed.

(** A surrogate standing alone is sealed as U+FFFD is: nothing that
    unseals can tell the two texts apart. *)
Lemma encrypt_lone_surrogate (this : SecureBridge) (e : Entropy) :
  encrypt this [0xD800] e = encrypt this [0xFFFD] e.
Proof. reflexivity. Qed.


End Unseal.

(* ===================================================================== *)
(** * The sealing side on concrete inputs *)
(* ===================================================================== *)

Module Examples.
Import Toy ToyFacts.

Lemma sealed_counting :
  @encrypt primitives bridge text counting
  = (Ok payload, snd (@encrypt primitives bridge text counting)).
Proof. apply injective_projections; [vm_compute|]; reflexivity. Qed.

Lemma sealed_zeros :
  @encrypt primitives bridge text zeros
  = (Ok payload_zeros, snd (@encrypt primitives bridge text zeros)).
Proof. apply injective_projections; [vm_compute|]; reflexivity. Qed.

(** The structure of the payload of ["123-45-6789"]. *)
Lemma encrypt_payload_structure_example :
  exists k wrapped,
    @publicKey primitives bridge = Some (@imported_key primitives k)
    /\ length (drawn_key counting) = 32%nat
    /\ length (drawn_nonce counting) = 12%nat
    /\ base64ToArrayBuffer (encrypted_data payload)
       = Ok (ctr (drawn_key counting) (drawn_nonce counting) (TextEncoder_encode text))
    /\ base64ToArrayBuffer (auth_tag payload)
       = Ok (tag (drawn_key counting) (drawn_nonce counting)
               (ctr (drawn_key counting) (drawn_nonce counting)
                  (TextEncoder_encode text)))
    /\ length (tag (drawn_key counting) (drawn_nonce counting)
                 (ctr (drawn_key counting) (drawn_nonce counting)
                    (TextEncoder_encode text))) = 16%nat
    /\ base64ToArrayBuffer (iv payload) = Ok (drawn_nonce counting)
    /\ wrap SHA_256 k (drawn_seed SHA_256 counting) (drawn_key counting) = Some wrapped
    /\ base64ToArrayBuffer (encrypted_key payload) = Ok wrapped.
Proof.
  exact (@encrypt_payload_structure primitives laws bridge text counting _ payload
           bridge_reachable sealed_counting).
Defined.

(** Two sealings of ["123-45-6789"], on two tapes. *)
Lemma encrypt_twice_differs_example :
  base64ToArrayBuffer (iv payload) = Ok (drawn_nonce counting)
  /\ base64ToArrayBuffer (iv payload_zeros) = Ok (drawn_nonce zeros)
  /\ length (drawn_key counting) = 32%nat /\ length (drawn_nonce counting) = 12%nat
  /\ drawn_key (snd (@encrypt primitives bridge text counting))
     = map counting (seq 76 32)
  /\ drawn_nonce (snd (@encrypt primitives bridge text counting))
     = map counting (seq 108 12)
  /\ (drawn_nonce counting <> drawn_nonce zeros -> iv payload <> iv payload_zeros)
  /\ (drawn_key counting <> drawn_key zeros ->
      encrypted_key payload <> encrypted_key payload_zeros).
Proof.
  exact (@encrypt_twice_differs primitives laws bridge [x30; x30] [x30; x30] text
           counting zeros _ _ payload payload_zeros
           bridge_publicKey (key_pair_same [x30; x30])
           sealed_counting sealed_zeros).
Defined.

(** C3 as stated fails for the empty text: the keys and the nonces drawn
    on the two tapes differ, and so do the [iv] fields and the wrapped
    keys, but [encrypted_data] is the empty string both times. *)
Lemma empty_text_same_ciphertext :
  @reachable primitives bridge
  /\ fst (@encrypt primitives bridge [] counting) = Ok empty_sealed
  /\ fst (@encrypt primitives bridge [] zeros) = Ok empty_sealed_zeros
  /\ drawn_key counting <> drawn_key zeros
  /\ drawn_nonce counting <> drawn_nonce zeros
  /\ iv empty_sealed <> iv empty_sealed_zeros
  /\ encrypted_key empty_sealed <> encrypted_key empty_sealed_zeros
  /\ encrypted_data empty_sealed = encrypted_data empty_sealed_zeros.
Proof.
  split; [exact bridge_reachable|].
  repeat split; try (vm_compute; reflexivity); vm_compute; discriminate.
Qed.

(** The round trip of ["123-45-6789"] under version ["dek-v1"]. *)
Lemma seal_unseal_round_trip_example :
  @HybridCipher.unseal primitives payload (Some [x30; x30]) = Ok text.
Proof.
  exact (@seal_unseal_round_trip primitives laws registry "dek-v1" [x30; x30] pem
           text counting _ payload
           eq_refl pem_key_pair eq_refl sealed_counting).
Defined.

(** C1 as stated fails for a text holding a lone surrogate: it is sealed
    exactly as U+FFFD is, and U+FFFD is what unsealing returns. *)
Lemma lone_surrogate_not_recovered :
  fst (@encrypt primitives bridge [0xD800] counting)
    = fst (@encrypt primitives bridge [0xFFFD] counting)
  /\ Unicode.isWellFormed [0xD800] = false
  /\ KeyRegistry.resolveForRead registry "dek-v1" = Ok ([x30; x30], pem)
  /\ @HybridCipher.version_key_pair primitives [x30; x30] pem
  /\ @HybridCipher.unseal primitives
       (payload_of (@encrypt primitives bridge [0xD800] counting)) (Some [x30; x30])
     = Ok [0xFFFD]
  /\ [0xFFFD] <> [0xD800].
Proof.
  split; [reflexivity|]. split; [reflexivity|]. split; [reflexivity|].
  split; [exact pem_key_pair|].
  split; [vm_compute; reflexivity | discriminate].
Qed.


(** One flipped bit, computed. *)
Example flipped_bit_rejected :
  @HybridCipher.unseal primitives
    (HybridCipher.flip_ciphertext_bit 3 payload) (Some [x30; x30])
  = Err HybridCipher.AuthenticationError
  /\ @HybridCipher.unseal primitives
    (HybridCipher.flip_tag_bit 127 payload) (Some [x30; x30])
  = Err HybridCipher.AuthenticationError.
Proof. split; vm_compute; reflexivity. Qed.

End Examples.

(* ===================================================================== *)
(** * The key registry *)
(* ===================================================================== *)

Module KeyRegistryFacts.
Import KeyRegistry.

Section Facts.
Context {Material : Type}.
Implicit Types (reg : gmap string (KeyVersion Material)) (kv : KeyVersion Material).

Lemma demote_not_active kv : state (demote kv) <> active_write.
Proof.
  unfold demote, is_active. case_bool_decide as Hs; cbn; congruence.
Qed.

Lemma demote_rank kv : (rank (state kv) <= rank (state (demote kv)))%nat.
Proof.
  unfold demote, is_active. case_bool_decide as Hs; [rewrite Hs; cbn; lia | lia].
Qed.

(** Making one version the writer while demoting the rest leaves
    exactly that one. *)
Lemma single_writer reg v kv :
  at_most_one_active (<[v := with_state active_write kv]> (demote <$> reg)).
Proof.
  intros v1 v2 k1 k2 H1 H2 S1 S2.
  destruct (decide (v1 = v)) as [->|N1], (decide (v2 = v)) as [->|N2];
    [reflexivity | | | ].
  - rewrite lookup_insert_ne, lookup_fmap in H2 by congruence.
    destruct (reg !! v2) as [k|]; [|discriminate]. injection H2 as <-.
    now apply demote_not_active in S2.
  - rewrite lookup_insert_ne, lookup_fmap in H1 by congruence.
    destruct (reg !! v1) as [k|]; [|discriminate]. injection H1 as <-.
    now apply demote_not_active in S1.
  - rewrite lookup_insert_ne, lookup_fmap in H1 by congruence.
    destruct (reg !! v1) as [k|]; [|discriminate]. injection H1 as <-.
    now apply demote_not_active in S1.
Qed.

Lemma apply_preserves reg op reg' :
  at_most_one_active reg -> apply op reg = Ok reg' -> at_most_one_active reg'.
Proof.
  intros Hinv. destruct op as [v m | v | v | v n f]; cbn [apply].
  - unfold register. destruct (reg !! v) eqn:Hv; [discriminate|].
    intros [= <-] v1 v2 k1 k2 H1 H2 S1 S2.
    destruct (decide (v1 = v)) as [->|N1].
    { rewrite lookup_insert_eq in H1. injection H1 as <-. discriminate. }
    destruct (decide (v2 = v)) as [->|N2].
    { rewrite lookup_insert_eq in H2. injection H2 as <-. discriminate. }
    rewrite lookup_insert_ne in H1, H2 by congruence. eauto.
  - unfold promote. destruct (reg !! v) as [kv|]; [|discriminate].
    destruct (state kv); try discriminate. intros [= <-]. apply single_writer.
  - unfold rollback. destruct (reg !! v) as [kv|]; [|discriminate].
    destruct (state kv); try discriminate. intros [= <-]. apply single_writer.
  - unfold retire. destruct (reg !! v) as [kv|]; [|discriminate].
    destruct (state kv); try discriminate.
    destruct ((n =? 0)%nat || f); [|discriminate].
    intros [= <-] v1 v2 k1 k2 H1 H2 S1 S2.
    destruct (decide (v1 = v)) as [->|N1].
    { rewrite lookup_insert_eq in H1. injection H1 as <-. discriminate. }
    destruct (decide (v2 = v)) as [->|N2].
    { rewrite lookup_insert_eq in H2. injection H2 as <-. discriminate. }
    rewrite lookup_insert_ne in H1, H2 by congruence. eauto.
Qed.

Lemma reachable_at_most_one_active reg :
  reachable reg -> at_most_one_active reg.
Proof.
  induction 1 as [|reg op reg' _ IH Hop].
  - intros v1 v2 k1 k2 H1. now rewrite lookup_empty in H1.
  - eapply apply_preserves; eassumption.
Qed.

Lemma promote_effect reg v reg' :
  promote reg v = Ok reg' ->
  (exists kv, reg !! v = Some kv /\ state kv = future
              /\ reg' !! v = Some (with_state active_write kv))
  /\ (forall v' kv', v' <> v -> reg !! v' = Some kv' ->
        reg' !! v' = Some (if bool_decide (state kv' = active_write)
                           then with_state decrypt_only kv' else kv')).
Proof.
  unfold promote. destruct (reg !! v) as [kv|] eqn:Hv; [|discriminate].
  destruct (state kv) eqn:Hs; try discriminate. intros [= <-]. split.
  - exists kv. now rewrite lookup_insert_eq.
  - intros v' kv' Hne Hv'.
    rewrite lookup_insert_ne, lookup_fmap, Hv' by congruence. reflexivity.
Qed.

(** Every operation keeps every version, with its material, and moves
    its state forward or not at all; the one exception is the version
    named by a rollback. *)
Lemma apply_forward op reg reg' v kv :
  apply op reg = Ok reg' -> reg !! v = Some kv ->
  exists kv', reg' !! v = Some kv' /\ material kv' = material kv
    /\ ((rank (state kv) <= rank (state kv'))%nat
        \/ (op = Rollback v /\ state kv = decrypt_only
            /\ state kv' = active_write)).
Proof.
  intros Hop Hv. destruct op as [w m | w | w | w n f]; cbn [apply] in Hop.
  - unfold register in Hop. destruct (reg !! w) eqn:Hw; [discriminate|].
    injection Hop as <-. exists kv.
    rewrite lookup_insert_ne by congruence. auto.
  - unfold promote in Hop. destruct (reg !! w) as [kw|] eqn:Hw; [|discriminate].
    destruct (state kw) eqn:Hs; try discriminate. injection Hop as <-.
    destruct (decide (v = w)) as [->|Hne].
    + rewrite Hw in Hv. injection Hv as <-.
      exists (with_state active_write kw). rewrite lookup_insert_eq.
      repeat split. left. rewrite Hs. cbn. lia.
    + exists (demote kv). rewrite lookup_insert_ne, lookup_fmap, Hv by congruence.
      repeat split; [unfold demote; now destruct (is_active kv)|].
      left. apply demote_rank.
  - unfold rollback in Hop. destruct (reg !! w) as [kw|] eqn:Hw; [|discriminate].
    destruct (state kw) eqn:Hs; try discriminate. injection Hop as <-.
    destruct (decide (v = w)) as [->|Hne].
    + rewrite Hw in Hv. injection Hv as <-.
      exists (with_state active_write kw). rewrite lookup_insert_eq.
      repeat split. right. auto.
    + exists (demote kv). rewrite lookup_insert_ne, lookup_fmap, Hv by congruence.
      repeat split; [unfold demote; now destruct (is_active kv)|].
      left. apply demote_rank.
  - unfold retire in Hop. destruct (reg !! w) as [kw|] eqn:Hw; [|discriminate].
    destruct (state kw) eqn:Hs; try discriminate.
    destruct ((n =? 0)%nat || f); [|discriminate]. injection Hop as <-.
    destruct (decide (v = w)) as [->|Hne].
    + rewrite Hw in Hv. injection Hv as <-.
      exists (with_state retired kw). rewrite lookup_insert_eq.
      repeat split. left. rewrite Hs. cbn. lia.
    + exists kv. rewrite lookup_insert_ne by congruence. auto.
Qed.

(** C7. In every reachable registry at most one version is
    active_write. From such a registry, [promote] moves a future
    version to active_write and in the same step demotes the version
    that was active_write to decrypt_only, leaving the others as they
    were and again at most one writer. Every operation moves every
    version's state forward through future, active_write,
    decrypt_only, retired or leaves it, except a rollback, which takes
    the version it names from decrypt_only back to active_write. *)
Theorem registry_lifecycle reg :
  reachable reg ->
  at_most_one_active reg
  /\ (forall v reg', promote reg v = Ok reg' ->
        (exists kv, reg !! v = Some kv /\ state kv = future
                    /\ reg' !! v = Some (with_state active_write kv))
        /\ (forall v' kv', v' <> v -> reg !! v' = Some kv' ->
              reg' !! v' = Some (if bool_decide (state kv' = active_write)
                                 then with_state decrypt_only kv' else kv'))
        /\ at_most_one_active reg')
  /\ (forall op reg' v kv, apply op reg = Ok reg' -> reg !! v = Some kv ->
        exists kv', reg' !! v = Some kv' /\ material kv' = material kv
          /\ ((rank (state kv) <= rank (state kv'))%nat
              \/ (op = Rollback v /\ state kv = decrypt_only
                  /\ state kv' = active_write))).
Proof.
  intros Hr. pose proof (reachable_at_most_one_active reg Hr) as Hinv.
  split; [exact Hinv|]. split.
  - intros v reg' Hp. destruct (promote_effect reg v reg' Hp) as [H1 H2].
    repeat split; [exact H1 | exact H2 |].
    apply (apply_preserves reg (Promote v) reg' Hinv Hp).
  - intros op reg' v kv. apply apply_forward.
Qed.

End Facts.

Lemma two_versions_reachable : reachable Toy.two_versions.
Proof.
  apply (reachable_step
           {[ "dek-v1"%string := {| state := active_write; material := 1%nat |};
              "dek-v2"%string := {| state := future; material := 2%nat |} ]}
           (Promote "dek-v2")).
  - apply (reachable_step
             {[ "dek-v1"%string := {| state := active_write; material := 1%nat |} ]}
             (Register "dek-v2" 2%nat)).
    + apply (reachable_step
               {[ "dek-v1"%string := {| state := future; material := 1%nat |} ]}
               (Promote "dek-v1")).
      * apply (reachable_step ∅ (Register "dek-v1" 1%nat)); [constructor|].
        vm_compute. reflexivity.
      * vm_compute. reflexivity.
    + vm_compute. reflexivity.
  - vm_compute. reflexivity.
Qed.

Lemma registry_lifecycle_example :
  at_most_one_active Toy.two_versions
  /\ (forall v reg', promote Toy.two_versions v = Ok reg' ->
        (exists kv, Toy.two_versions !! v = Some kv /\ state kv = future
                    /\ reg' !! v = Some (with_state active_write kv))
        /\ (forall v' kv', v' <> v -> Toy.two_versions !! v' = Some kv' ->
              reg' !! v' = Some (if bool_decide (state kv' = active_write)
                                 then with_state decrypt_only kv' else kv'))
        /\ at_most_one_active reg')
  /\ (forall op reg' v kv, apply op Toy.two_versions = Ok reg' ->
        Toy.two_versions !! v = Some kv ->
        exists kv', reg' !! v = Some kv' /\ material kv' = material kv
          /\ ((rank (state kv) <= rank (state kv'))%nat
              \/ (op = Rollback v /\ state kv = decrypt_only
                  /\ state kv' = active_write))).
Proof. exact (registry_lifecycle Toy.two_versions two_versions_reachable). Defined.

End KeyRegistryFacts.

(* ===================================================================== *)
(** * The re-encryption worker *)
(* ===================================================================== *)

Module ReencryptionWorkerFacts.
Import KeyRegistry ReencryptionWorker.

Section Facts.
Context {Material Plaintext Sealed : Type}.
Variable unseal : Material -> Sealed -> option Plaintext.
Variable seal : Material -> Plaintext -> Entropy -> option Sealed * Entropy.

Lemma conditional_write_zero (store : gmap nat (RecordEnvelope Sealed)) id expected s target now batch :
  snd (conditional_write store id expected s target now batch) = 0%nat ->
  fst (conditional_write store id expected s target now batch) = store.
Proof.
  unfold conditional_write. destruct (store !! id) as [stored|]; [|reflexivity].
  case_bool_decide; [discriminate | reflexivity].
Qed.

(** A conditional write touches the record it names, and only when the
    stored version is the expected one. *)
Lemma conditional_write_other (store : gmap nat (RecordEnvelope Sealed)) id expected s target
    now batch id' :
  id' <> id ->
  fst (conditional_write store id expected s target now batch) !! id'
  = store !! id'.
Proof.
  intros Hne. unfold conditional_write.
  destruct (store !! id) as [stored|]; [|reflexivity].
  case_bool_decide; cbn [fst]; [|reflexivity].
  now rewrite lookup_insert_ne by congruence.
Qed.

Lemma process_record_failed reg now batch id observed (store : gmap nat (RecordEnvelope Sealed))
    e o store' e' :
  process_record unseal seal reg now batch id observed store e = (o, store', e') ->
  is_success o = false -> store' = store.
Proof.
  unfold process_record.
  destruct (resolveForRead reg (dek_version observed)) as [src|x];
    [|now intros [= <- <- <-]].
  destruct (unseal src (sealed observed)) as [p|]; [|now intros [= <- <- <-]].
  destruct (resolveForWrite reg) as [[target tk]|x]; [|now intros [= <- <- <-]].
  destruct (seal tk p e) as [[s|] e1]; [|now intros [= <- <- <-]].
  destruct (conditional_write store id (dek_version observed) s target now batch)
    as [st [|n]]; intros [= <- <- <-]; discriminate.
Qed.

(** Processing a record never touches another record. *)
Lemma process_record_other reg now batch id observed
    (store : gmap nat (RecordEnvelope Sealed)) e o store' e' :
  process_record unseal seal reg now batch id observed store e = (o, store', e') ->
  forall id', id' <> id -> store' !! id' = store !! id'.
Proof.
  unfold process_record.
  destruct (resolveForRead reg (dek_version observed)) as [src|x];
    [|now intros [= <- <- <-]].
  destruct (unseal src (sealed observed)) as [p|]; [|now intros [= <- <- <-]].
  destruct (resolveForWrite reg) as [[target tk]|x]; [|now intros [= <- <- <-]].
  destruct (seal tk p e) as [[s|] e1]; [|now intros [= <- <- <-]].
  pose proof (conditional_write_other store id (dek_version observed) s target
                now batch) as Hother.
  destruct (conditional_write store id (dek_version observed) s target now batch)
    as [st [|n]]; intros [= <- <- <-] id' Hne; now apply Hother.
Qed.

Lemma process_batch_ids reg now batch selected (store : gmap nat (RecordEnvelope Sealed)) e :
  map fst (fst (fst (process_batch unseal seal reg now batch selected store e)))
  = map fst selected.
Proof.
  revert store e. induction selected as [|[id observed] rest IH]; intros store e.
  - reflexivity.
  - cbn [process_batch].
    destruct (process_record unseal seal reg now batch id observed store e) as [[o st1] e1].
    specialize (IH st1 e1).
    destruct (process_batch unseal seal reg now batch rest st1 e1) as [[os st2] e2].
    cbn [fst map] in *. now rewrite IH.
Qed.

(** C8. For a record the worker processes: when the conditional write
    affects no row the record counts as a success and nothing is
    stored; when unsealing or sealing fails the record is a recorded
    failure and the stored data is exactly as before (as after any
    failure; and no other record is ever touched); and whatever the
    outcome, the rest of the batch is processed after it, every
    selected record getting its outcome. *)
Theorem worker_record_outcomes
    (reg : gmap string (KeyVersion Material)) (now : Z) (batch id : nat)
    (observed : RecordEnvelope Sealed) (store store' : gmap nat (RecordEnvelope Sealed))
    (e e' : Entropy) (o : RecordOutcome) :
  process_record unseal seal reg now batch id observed store e = (o, store', e') ->
  (forall src p target tk s e1,
      resolveForRead reg (dek_version observed) = Ok src ->
      unseal src (sealed observed) = Some p ->
      resolveForWrite reg = Ok (target, tk) ->
      seal tk p e = (Some s, e1) ->
      snd (conditional_write store id (dek_version observed) s target now batch)
        = 0%nat ->
      o = AlreadyMigrated /\ is_success o = true /\ store' = store)
  /\ (forall src,
      resolveForRead reg (dek_version observed) = Ok src ->
      unseal src (sealed observed) = None ->
      o = Failed UnsealFailed /\ store' = store)
  /\ (forall src p target tk,
      resolveForRead reg (dek_version observed) = Ok src ->
      unseal src (sealed observed) = Some p ->
      resolveForWrite reg = Ok (target, tk) ->
      fst (seal tk p e) = None ->
      o = Failed SealFailed /\ store' = store)
  /\ (is_success o = false -> store' = store)
  /\ (forall id', id' <> id -> store' !! id' = store !! id')
  /\ (forall rest,
      exists os store2 e2,
        process_batch unseal seal reg now batch rest store' e' = (os, store2, e2)
        /\ process_batch unseal seal reg now batch ((id, observed) :: rest) store e
           = ((id, o) :: os, store2, e2)
        /\ map fst os = map fst rest).
Proof.
  intros Hp. split; [|split; [|split; [|split; [|split]]]].
  - intros src p target tk s e1 Hr Hu Hw Hs Hz. revert Hp.
    unfold process_record. rewrite Hr, Hu, Hw, Hs.
    pose proof (conditional_write_zero store id (dek_version observed)
                  s target now batch Hz) as Hst.
    destruct (conditional_write store id (dek_version observed) s target now batch)
      as [st n]. cbn [fst snd] in *. subst n st. now intros [= <- <- <-].
  - intros src Hr Hu. revert Hp.
    unfold process_record. rewrite Hr, Hu. now intros [= <- <- <-].
  - intros src p target tk Hr Hu Hw Hs. revert Hp.
    unfold process_record. rewrite Hr, Hu, Hw.
    destruct (seal tk p e) as [[s|] e1]; [discriminate|].
    now intros [= <- <- <-].
  - now apply (process_record_failed reg now batch id observed store e o store' e').
  - now apply (process_record_other reg now batch id observed store e o store' e').
  - intros rest.
    pose proof (process_batch_ids reg now batch rest store' e') as Hids.
    destruct (process_batch unseal seal reg now batch rest store' e')
      as [[os st2] e2] eqn:Hb.
    exists os, st2, e2. split; [reflexivity|]. split; [|exact Hids].
    cbn [process_batch]. now rewrite Hp, Hb.
Qed.

End Facts.
(** Record 7 was read under ["dek-v1"]; by the time of the write another
    run has migrated it. The conditional write affects no row and the
    record counts as a success. *)
Lemma process_already_migrated :
  process_record Toy.worker_unseal Toy.worker_seal Toy.two_versions 300 2 7
    Toy.observed Toy.migrated_store Toy.zeros
  = (AlreadyMigrated, Toy.migrated_store, Toy.zeros).
Proof. vm_compute. reflexivity. Qed.

Lemma worker_record_outcomes_example :
  (forall src p target tk s e1,
      resolveForRead Toy.two_versions (dek_version Toy.observed) = Ok src ->
      Toy.worker_unseal src (sealed Toy.observed) = Some p ->
      resolveForWrite Toy.two_versions = Ok (target, tk) ->
      Toy.worker_seal tk p Toy.zeros = (Some s, e1) ->
      snd (conditional_write Toy.migrated_store 7 (dek_version Toy.observed)
             s target 300 2) = 0%nat ->
      AlreadyMigrated = AlreadyMigrated /\ is_success AlreadyMigrated = true
      /\ Toy.migrated_store = Toy.migrated_store)
  /\ (forall src,
      resolveForRead Toy.two_versions (dek_version Toy.observed) = Ok src ->
      Toy.worker_unseal src (sealed Toy.observed) = None ->
      AlreadyMigrated = Failed UnsealFailed
      /\ Toy.migrated_store = Toy.migrated_store)
  /\ (forall src p target tk,
      resolveForRead Toy.two_versions (dek_version Toy.observed) = Ok src ->
      Toy.worker_unseal src (sealed Toy.observed) = Some p ->
      resolveForWrite Toy.two_versions = Ok (target, tk) ->
      fst (Toy.worker_seal tk p Toy.zeros) = None ->
      AlreadyMigrated = Failed SealFailed
      /\ Toy.migrated_store = Toy.migrated_store)
  /\ (is_success AlreadyMigrated = false -> Toy.migrated_store = Toy.migrated_store)
  /\ (forall id', id' <> 7%nat ->
      Toy.migrated_store !! id' = Toy.migrated_store !! id')
  /\ (forall rest,
      exists os store2 e2,
        process_batch Toy.worker_unseal Toy.worker_seal Toy.two_versions 300 2
          rest Toy.migrated_store Toy.zeros = (os, store2, e2)
        /\ process_batch Toy.worker_unseal Toy.worker_seal Toy.two_versions 300 2
             ((7%nat, Toy.observed) :: rest) Toy.migrated_store Toy.zeros
           = ((7%nat, AlreadyMigrated) :: os, store2, e2)
        /\ map fst os = map fst rest).
Proof.
  exact (worker_record_outcomes Toy.worker_unseal Toy.worker_seal
           Toy.two_versions 300 2 7 Toy.observed Toy.migrated_store
           Toy.migrated_store Toy.zeros Toy.zeros AlreadyMigrated
           process_already_migrated).
Defined.

(** A whole batch: record 7 is skipped as already migrated, record 8
    does not unseal and is left alone, record 9 is migrated. *)
Example batch_continues_after_failure :
  let store : gmap nat (RecordEnvelope (nat * nat)) :=
    <[9%nat := Toy.observed]>
      (<[8%nat := {| sealed := (5%nat, 0%nat); dek_version := "dek-v1";
                     created_at := 0; updated_at := 0; reencrypted_at := None;
                     migration_batch_id := None |}]> Toy.migrated_store) in
  let r := process_batch Toy.worker_unseal Toy.worker_seal Toy.two_versions 300 2
             [(7%nat, Toy.observed);
              (8%nat, {| sealed := (5%nat, 0%nat); dek_version := "dek-v1";
                         created_at := 0; updated_at := 0; reencrypted_at := None;
                         migration_batch_id := None |});
              (9%nat, Toy.observed)] store Toy.zeros in
  fst (fst r) = [(7%nat, AlreadyMigrated); (8%nat, Failed UnsealFailed);
                 (9%nat, Migrated)]
  /\ snd (fst r) !! 8%nat = store !! 8%nat
  /\ (dek_version <$> snd (fst r) !! 9%nat) = Some "dek-v2"%string.
Proof. vm_compute. repeat split; reflexivity. Qed.

End ReencryptionWorkerFacts.

(* ===================================================================== *)
(** * Instances, and the hook's shared one *)
(* ===================================================================== *)

Section Instances.
Context `{Primitives}.

Lemma call_initialize_other (h : gmap nat SecureBridge) l1 l2 pem :
  l1 <> l2 -> snd (call_initialize l1 pem h) !! l2 = h !! l2.
Proof.
  intros Hne. unfold call_initialize.
  destruct (h !! l1) as [this|]; [|reflexivity].
  destruct (initialize this pem) as [r this']. cbn [snd].
  now rewrite lookup_insert_ne.
Qed.

Lemma call_encrypt_heap (h : gmap nat SecureBridge) l data e :
  snd (fst (call_encrypt l data h e)) = h.
Proof.
  unfold call_encrypt. destruct (h !! l) as [this|]; [|reflexivity].
  now destruct (encrypt this data e).
Qed.

(** What [call_encrypt] answers depends on the receiver alone. *)
Lemma call_encrypt_receiver (h h' : gmap nat SecureBridge) l data e :
  h' !! l = h !! l ->
  fst (fst (call_encrypt l data h' e)) = fst (fst (call_encrypt l data h e))
  /\ snd (call_encrypt l data h' e) = snd (call_encrypt l data h e).
Proof.
  intros Heq. unfold call_encrypt. rewrite Heq.
  destruct (h !! l) as [this|]; [|now split].
  now destruct (encrypt this data e).
Qed.

(** Once the module-level flag is set, a component that mounts is handed
    the shared instance as it is; the backend is not asked again. *)
Lemma useSecureBridge_initialized (g : HookModule) response :
  isInitialized g = true ->
  useSecureBridge response g = (g, {| ready := true; error := None |}).
Proof.
  intros Hi. unfold useSecureBridge, init. now rewrite Hi.
Qed.

(** C9, as amended. The state of the cipher is kept in the instance:
    [initialize] on one [SecureBridge] leaves every other instance as it
    was and does not change what [encrypt] on another instance returns,
    and [encrypt] changes no instance. The hook is the exception: it
    keeps one module-level instance and flag, and once the flag is set
    every component that mounts gets that same instance, unchanged. *)
Theorem state_is_per_instance
    (h : gmap nat SecureBridge) (l1 l2 : nat) (pem data : DOMString)
    (e : Entropy) (g : HookModule) (response : option DOMString) :
  l1 <> l2 ->
  isInitialized g = true ->
  snd (call_initialize l1 pem h) !! l2 = h !! l2
  /\ fst (fst (call_encrypt l2 data (snd (call_initialize l1 pem h)) e))
     = fst (fst (call_encrypt l2 data h e))
  /\ snd (call_encrypt l2 data (snd (call_initialize l1 pem h)) e)
     = snd (call_encrypt l2 data h e)
  /\ snd (fst (call_encrypt l2 data h e)) = h
  /\ useSecureBridge response g = (g, {| ready := true; error := None |}).
Proof.
  intros Hne Hi.
  pose proof (call_initialize_other h l1 l2 pem Hne) as Hframe.
  destruct (call_encrypt_receiver h (snd (call_initialize l1 pem h)) l2 data e Hframe)
    as [Hr He].
  repeat split; try assumption.
  - apply call_encrypt_heap.
  - now apply useSecureBridge_initialized.
Qed.

End Instances.

Module HookExamples.
Import Toy.

Lemma after_first_initialized : @isInitialized primitives after_first = true.
Proof. reflexivity. Qed.

Lemma state_is_per_instance_example :
  snd (@call_initialize primitives 1 pem' two_bridges) !! 0%nat = two_bridges !! 0%nat
  /\ fst (fst (@call_encrypt primitives 0 text
                 (snd (@call_initialize primitives 1 pem' two_bridges)) counting))
     = fst (fst (@call_encrypt primitives 0 text two_bridges counting))
  /\ snd (@call_encrypt primitives 0 text
            (snd (@call_initialize primitives 1 pem' two_bridges)) counting)
     = snd (@call_encrypt primitives 0 text two_bridges counting)
  /\ snd (fst (@call_encrypt primitives 0 text two_bridges counting)) = two_bridges
  /\ @useSecureBridge primitives (Some pem') after_first
     = (after_first, {| ready := true; error := None |}).
Proof.
  refine (@state_is_per_instance primitives two_bridges 1 0 pem' text counting
            after_first (Some pem') _ after_first_initialized).
  discriminate.
Defined.

(** C9 as stated fails on the hook: the instance is a module-level
    singleton. A component that mounts when the backend serves [pem']
    holds a cipher for [pem'] if it is the first to mount, and the cipher
    for [pem] if another component mounted before it; what it seals then
    differs too. *)
Lemma hook_instance_is_shared :
  @bridgeInstance primitives
    (fst (@useSecureBridge primitives (Some pem') (@module_load primitives)))
  = snd (@initialize primitives (@new_SecureBridge primitives) pem')
  /\ @bridgeInstance primitives
       (fst (@useSecureBridge primitives (Some pem') after_first))
     = bridge
  /\ bridge <> snd (@initialize primitives (@new_SecureBridge primitives) pem')
  /\ fst (@encrypt primitives
            (@bridgeInstance primitives
               (fst (@useSecureBridge primitives (Some pem') after_first)))
            text counting)
     <> fst (@encrypt primitives
               (@bridgeInstance primitives
                  (fst (@useSecureBridge primitives (Some pem')
                          (@module_load primitives))))
               text counting).
Proof.
  split; [reflexivity|]. split; [reflexivity|]. split.
  - intros Heq.
    apply (f_equal (fun b => match @publicKey primitives b with
                             | Some k => match key_data k with
                                         | PublicRsa pk => pk
                                         | SecretBytes _ => []
                                         end
                             | None => []
                             end)) in Heq.
    vm_compute in Heq. discriminate.
  - intros Heq.
    apply (f_equal (fun r => nth 50 (encrypted_key (payload_of (r, zeros))) 0)) in Heq.
    vm_compute in Heq. discriminate.
Qed.

End HookExamples.

(* ===================================================================== *)
(** * The shape of base64 text, and what is not base64 text *)
(* ===================================================================== *)

Module Base64Shape.
Import Base64 Base64Facts.

Lemma encode_length (bs : list Z) :
length (encode bs) = (4 * ((length bs + 2) / 3))%nat.
Proof.
unfold encode. rewrite length_app, length_map.
apply (sextets_length bs).
Qed.

Lemma alphabet_is_base64_char i : sextet i -> is_base64_char (alphabet i) = true.
Proof. intros Hi. unfold is_base64_char. now rewrite index_alphabet. Qed.

Lemma encode_chars (bs : list Z) :
Forall octet bs -> Forall (fun c => is_base64_char c = true) (encode bs).
Proof.
intros Hbs. unfold encode. apply Forall_app. split.
- apply Forall_forall. intros c Hc. apply list_elem_of_In, in_map_iff in Hc.
  destruct Hc as (i & <- & Hi). apply alphabet_is_base64_char.
  pose proof (sextets_range bs Hbs) as Hsx. rewrite Forall_forall in Hsx.
  apply Hsx. now apply list_elem_of_In.
- unfold padding. destruct (length bs mod 3)%nat as [|[|[|k]]];
    repeat constructor.
Qed.

(** No character of base64 text is a dash, and none is a space of any
  kind. *)
Lemma base64_char_not_dash c : is_base64_char c = true -> c <> 45.
Proof.
unfold is_base64_char, index, pad. intros Hc ->. discriminate.
Qed.

Lemma base64_char_not_space c :
is_base64_char c = true -> is_regexp_space c = false.
Proof.
unfold is_base64_char, index, pad. intros Hc.
assert (Hr : 43 <= c <= 122).
{ repeat case_match; try discriminate;
    repeat match goal with
           | H : _ && _ = true |- _ => apply andb_true_iff in H; destruct H
           | H : (_ <=? _) = true |- _ => apply Z.leb_le in H
           | H : (_ =? _) = true |- _ => apply Z.eqb_eq in H
           end; lia. }
unfold is_regexp_space. bool_arith.
Qed.

Lemma strip_padding_keeps (data : list Z) (c : Z) :
In c data -> c <> pad -> In c (strip_padding data).
Proof.
intros Hin Hne. unfold strip_padding.
destruct (length data mod 4 =? 0)%nat; [|exact Hin].
destruct (rev data) as [|c1 r1] eqn:Hrev; [exact Hin|].
assert (Hd : data = rev r1 ++ [c1]).
{ rewrite <- (rev_involutive data), Hrev. reflexivity. }
destruct (Z.eqb_spec c1 pad) as [->|_]; [|exact Hin].
assert (Hin1 : In c (rev r1)).
{ rewrite Hd in Hin. apply in_app_or in Hin as [Hin|[<-|[]]]; [exact Hin | contradiction]. }
destruct r1 as [|c2 r2]; [exact Hin1|].
destruct (Z.eqb_spec c2 pad) as [->|_]; [|exact Hin1].
cbn [rev] in Hin1. apply in_app_or in Hin1 as [Hin1|[<-|[]]];
  [exact Hin1 | contradiction].
Qed.

Lemma indices_None (data : list Z) (c : Z) :
In c data -> index c = None -> indices data = None.
Proof.
induction data as [|d data IH]; [intros []|].
intros [->|Hin] Hc; cbn [indices].
- now rewrite Hc.
- rewrite (IH Hin Hc). now destruct (index d).
Qed.

Lemma decode_rejects (data : list Z) (c : Z) :
In c data -> is_base64_char c = false -> is_ascii_whitespace c = false ->
decode data = None.
Proof.
intros Hin Hc Hw. unfold is_base64_char in Hc.
destruct (index c) eqn:Hi; [discriminate|].
apply Z.eqb_neq in Hc.
unfold decode.
set (data1 := filter (fun c => is_ascii_whitespace c = false) data).
assert (Hin1 : In c data1).
{ apply list_elem_of_In, list_elem_of_filter. split; [exact Hw|].
  now apply list_elem_of_In. }
pose proof (strip_padding_keeps data1 c Hin1 Hc) as Hin2.
rewrite (indices_None _ c Hin2 Hi).
now destruct (length (strip_padding data1) mod 4 =? 1)%nat.
Qed.

End Base64Shape.

(** [arrayBufferToBase64] never throws; its result has four characters
    for every three bytes (rounded up), each of them a base64 character. *)
Theorem arrayBufferToBase64_shape (buffer : list byte) :
  exists base64,
    arrayBufferToBase64 buffer = Ok base64
    /\ length base64 = (4 * ((length buffer + 2) / 3))%nat
    /\ Forall (fun c => is_base64_char c = true) base64
    /\ (base64 = [] <-> buffer = []).
Proof.
  exists (Base64.encode (map byte_to_Z buffer)).
  split; [apply arrayBufferToBase64_ok|].
  split; [now rewrite Base64Shape.encode_length, length_map|].
  split.
  - apply Base64Shape.encode_chars, Forall_forall. intros c Hc.
    apply list_elem_of_In, in_map_iff in Hc. destruct Hc as (b & <- & _).
    apply byte_to_Z_range.
  - split.
    + intros Hnil. apply (f_equal (@length Z)) in Hnil.
      rewrite Base64Shape.encode_length, length_map in Hnil. cbn [length] in Hnil.
      destruct buffer as [|b buffer]; [reflexivity|]. exfalso.
      cbn [length] in Hnil.
      assert (1 <= (S (length buffer) + 2) / 3)%nat
        by (apply Nat.div_le_lower_bound; lia).
      lia.
    + intros ->. reflexivity.
Qed.

(** [base64ToArrayBuffer] throws "InvalidCharacterError" on any text that
    holds a character which is neither a base64 character nor ASCII
    whitespace. *)
Theorem base64ToArrayBuffer_rejects (base64 : DOMString) (c : Z) :
  In c base64 ->
  is_base64_char c = false ->
  Base64.is_ascii_whitespace c = false ->
  base64ToArrayBuffer base64 = Err InvalidCharacterError.
Proof.
  intros Hin Hc Hw. unfold base64ToArrayBuffer, atob.
  now rewrite (Base64Shape.decode_rejects base64 c Hin Hc Hw).
Qed.

Lemma base64ToArrayBuffer_rejects_example :
  base64ToArrayBuffer (lit "MDA-") = Err InvalidCharacterError.
Proof.
  apply (base64ToArrayBuffer_rejects (lit "MDA-") 45); [|reflexivity..].
  cbn. tauto.
Defined.

(* ===================================================================== *)
(** * Stripping the PEM armour *)
(* ===================================================================== *)

Lemma String_replace_unfold (s pat repl : DOMString) :
  String_replace s pat repl
  = if starts_with pat s then repl ++ drop (length pat) s
    else match s with
         | [] => []
         | c :: rest => c :: String_replace rest pat repl
         end.
Proof. destruct s; reflexivity. Qed.

Lemma starts_with_app (pat rest : DOMString) : starts_with pat (pat ++ rest) = true.
Proof.
  induction pat as [|p pat IH]; [reflexivity|].
  cbn [app starts_with]. now rewrite Z.eqb_refl, IH.
Qed.

(** The first occurrence of [pat] is the one that no earlier text can
    begin: here, text free of the first character of [pat]. *)
Lemma String_replace_first (pre pat rest : DOMString) (p0 : Z) (pat' : DOMString) :
  pat = p0 :: pat' ->
  Forall (fun c => c <> p0) pre ->
  String_replace (pre ++ pat ++ rest) pat [] = pre ++ rest.
Proof.
  intros Hpat Hpre. induction Hpre as [|c pre Hc _ IH].
  - cbn [app]. rewrite String_replace_unfold, starts_with_app.
    now rewrite drop_app_length.
  - cbn [app]. rewrite String_replace_unfold.
    replace (starts_with pat (c :: pre ++ pat ++ rest)) with false.
    + now rewrite IH.
    + subst pat. cbn [starts_with].
      destruct (Z.eqb_spec p0 c) as [->|_]; [contradiction | reflexivity].
Qed.

Lemma remove_spaces_app (a b : DOMString) :
  remove_spaces (a ++ b) = remove_spaces a ++ remove_spaces b.
Proof. apply filter_app. Qed.

Lemma remove_spaces_spaces (s : DOMString) :
  Forall (fun c => is_regexp_space c = true) s -> remove_spaces s = [].
Proof.
  induction 1 as [|c s Hc _ IH]; [reflexivity|].
  unfold remove_spaces, DOMString in *.
  rewrite filter_cons, decide_False by congruence.
  exact IH.
Qed.

Lemma space_not_dash c : is_regexp_space c = true -> c <> 45.
Proof. intros Hc ->. discriminate. Qed.

(** The armoured text, with spaces around the armour and anywhere in the
    body, is stripped down to the body without its spaces. *)
Lemma pem_contents_armoured (pre body post : DOMString) :
  Forall (fun c => is_regexp_space c = true) pre ->
  Forall (fun c => is_regexp_space c = true) post ->
  Forall (fun c => c <> 45) body ->
  pem_contents (pre ++ pem_header ++ body ++ pem_footer ++ post)
  = remove_spaces body.
Proof.
  intros Hpre Hpost Hbody. unfold pem_contents. fold pem_header pem_footer.
  assert (Hpre' : Forall (fun c => c <> 45) pre).
  { eapply Forall_impl; [exact Hpre|]. intros c. apply space_not_dash. }
  rewrite (String_replace_first pre pem_header (body ++ pem_footer ++ post)
             45 (lit "----BEGIN PUBLIC KEY-----") eq_refl Hpre').
  rewrite (app_assoc pre body).
  rewrite (String_replace_first (pre ++ body) pem_footer post
             45 (lit "----END PUBLIC KEY-----") eq_refl).
  2:{ apply Forall_app. now split. }
  rewrite !remove_spaces_app.
  rewrite (remove_spaces_spaces pre Hpre), (remove_spaces_spaces post Hpost).
  cbn [app]. apply app_nil_r.
Qed.

(** Text that is base64 once its spaces are removed holds no dash. *)
Lemma body_without_dash (body : DOMString) (der : list byte) :
  remove_spaces body = Base64.encode (map byte_to_Z der) ->
  Forall (fun c => c <> 45) body.
Proof.
  intros Hbody. apply Forall_forall. intros c Hc.
  destruct (is_regexp_space c) eqn:Hs; [now apply space_not_dash|].
  apply Base64Shape.base64_char_not_dash.
  assert (Hin : c ∈ remove_spaces body).
  { apply list_elem_of_filter. now split. }
  rewrite Hbody in Hin.
  assert (Hall : Forall (fun c => is_base64_char c = true)
                   (Base64.encode (map byte_to_Z der))).
  { apply Base64Shape.encode_chars, Forall_forall. intros z Hz.
    apply list_elem_of_In, in_map_iff in Hz. destruct Hz as (b & <- & _).
    apply byte_to_Z_range. }
  rewrite Forall_forall in Hall. now apply Hall.
Qed.

(** A pattern cannot occur in text free of its first character. *)
Lemma String_replace_absent (s pat : DOMString) (p0 : Z) (pat' : DOMString) :
  pat = p0 :: pat' ->
  Forall (fun c => c <> p0) s ->
  String_replace s pat [] = s.
Proof.
  intros Hpat Hs. induction Hs as [|c s Hc _ IH].
  - subst pat. reflexivity.
  - rewrite String_replace_unfold.
    replace (starts_with pat (c :: s)) with false.
    + now rewrite IH.
    + subst pat. cbn [starts_with].
      destruct (Z.eqb_spec p0 c) as [->|_]; [contradiction | reflexivity].
Qed.

Lemma base64ToArrayBuffer_dash (base64 : DOMString) :
  In 45 base64 -> base64ToArrayBuffer base64 = Err InvalidCharacterError.
Proof.
  intros Hin. unfold base64ToArrayBuffer, atob.
  now rewrite (Base64Shape.decode_rejects base64 45 Hin eq_refl eq_refl).
Qed.

Section Armour.
Context `{Primitives}.

(** [initialize] on a PEM text in the usual armour: spaces or line breaks
  may surround the armour lines and break the body anywhere; if the body
  without them is the base64 text of [der], the outcome is that of
  importing [der]. *)
Theorem initialize_armoured_pem
  (this : SecureBridge) (pre body post : DOMString) (der : list byte) :
Forall (fun c => is_regexp_space c = true) pre ->
Forall (fun c => is_regexp_space c = true) post ->
remove_spaces body = Base64.encode (map byte_to_Z der) ->
initialize this (pre ++ pem_header ++ body ++ pem_footer ++ post)
= match parse_spki der with
  | Some k => (Ok tt, {| publicKey := Some (imported_key k) |})
  | None => (Err (InitializationError DataError), this)
  end.
Proof.
intros Hpre Hpost Hbody.
pose proof (body_without_dash body der Hbody) as Hdash.
pose proof (initialize_cases this (pre ++ pem_header ++ body ++ pem_footer ++ post))
  as Hc.
rewrite (pem_contents_armoured pre body post Hpre Hpost Hdash), Hbody in Hc.
rewrite base64ToArrayBuffer_encode in Hc.
destruct (parse_spki der); exact Hc.
Qed.

(** Text without armour, the bare base64 of [der] with or without spaces
  and line breaks, is taken as well. *)
Theorem initialize_bare_base64
  (this : SecureBridge) (body : DOMString) (der : list byte) :
remove_spaces body = Base64.encode (map byte_to_Z der) ->
initialize this body
= match parse_spki der with
  | Some k => (Ok tt, {| publicKey := Some (imported_key k) |})
  | None => (Err (InitializationError DataError), this)
  end.
Proof.
intros Hbody.
pose proof (body_without_dash body der Hbody) as Hdash.
pose proof (initialize_cases this body) as Hc.
unfold pem_contents in Hc.
rewrite (String_replace_absent body (lit "-----BEGIN PUBLIC KEY-----") 45
           (lit "----BEGIN PUBLIC KEY-----") eq_refl Hdash) in Hc.
rewrite (String_replace_absent body (lit "-----END PUBLIC KEY-----") 45
           (lit "----END PUBLIC KEY-----") eq_refl Hdash) in Hc.
rewrite Hbody, base64ToArrayBuffer_encode in Hc.
destruct (parse_spki der); exact Hc.
Qed.

(** Only the first armour is removed. Text that holds a dash after it, a
  second PEM block for instance, is refused as not being base64, and the
  object stays as it was. *)
Theorem initialize_refuses_trailing_dash
  (this : SecureBridge) (pre body post : DOMString) :
Forall (fun c => c <> 45) pre ->
Forall (fun c => c <> 45) body ->
In 45 post ->
initialize this (pre ++ pem_header ++ body ++ pem_footer ++ post)
= (Err (InitializationError InvalidCharacterError), this).
Proof.
intros Hpre Hbody Hpost.
pose proof (initialize_cases this (pre ++ pem_header ++ body ++ pem_footer ++ post))
  as Hc.
assert (Hcontents : pem_contents (pre ++ pem_header ++ body ++ pem_footer ++ post)
                    = remove_spaces (pre ++ body ++ post)).
{ unfold pem_contents. fold pem_header pem_footer.
  rewrite (String_replace_first pre pem_header (body ++ pem_footer ++ post)
             45 (lit "----BEGIN PUBLIC KEY-----") eq_refl Hpre).
  rewrite (app_assoc pre body).
  rewrite (String_replace_first (pre ++ body) pem_footer post
             45 (lit "----END PUBLIC KEY-----") eq_refl).
  - now rewrite <- app_assoc.
  - apply Forall_app. now split. }
rewrite Hcontents in Hc.
rewrite (base64ToArrayBuffer_dash (remove_spaces (pre ++ body ++ post))) in Hc;
  [exact Hc|].
apply list_elem_of_In, list_elem_of_filter. split; [reflexivity|].
apply list_elem_of_In, in_or_app. right. apply in_or_app. now right.
Qed.

End Armour.

Module ArmourExamples.
Import Toy Samples.

(** The key file of the examples: header, line break, ["MDA="], line
  break, footer, and a final line break. *)
Lemma initialize_armoured_pem_example :
@initialize primitives (@new_SecureBridge primitives)
  ([] ++ pem_header ++ ([10] ++ lit "MDA=" ++ [10]) ++ pem_footer ++ [10])
= (Ok tt, {| publicKey := Some (@imported_key primitives [x30; x30]) |}).
Proof.
refine (@initialize_armoured_pem primitives (@new_SecureBridge primitives)
          [] ([10] ++ lit "MDA=" ++ [10]) [10] [x30; x30] _ _ _).
- constructor.
- repeat constructor.
- reflexivity.
Defined.

(** The same body without the armour lines. *)
Lemma initialize_bare_base64_example :
@initialize primitives (@new_SecureBridge primitives) ([10] ++ lit "MDA=" ++ [10])
= (Ok tt, {| publicKey := Some (@imported_key primitives [x30; x30]) |}).
Proof.
exact (@initialize_bare_base64 primitives (@new_SecureBridge primitives)
         ([10] ++ lit "MDA=" ++ [10]) [x30; x30] eq_refl).
Defined.

Lemma no_dash_in_body : Forall (fun c => c <> 45) ([10] ++ lit "MDA=" ++ [10]).
Proof. repeat constructor; discriminate. Qed.

Lemma dash_in_second_block :
In 45 ([10] ++ pem_header ++ [10] ++ lit "MDE=" ++ [10] ++ pem_footer ++ [10]).
Proof. right. left. reflexivity. Qed.

(** Two blocks in one file: refused, the initialized object unchanged. *)
Lemma initialize_refuses_trailing_dash_example :
@initialize primitives bridge
  ([] ++ pem_header ++ ([10] ++ lit "MDA=" ++ [10]) ++ pem_footer
   ++ ([10] ++ pem_header ++ [10] ++ lit "MDE=" ++ [10] ++ pem_footer ++ [10]))
= (Err (InitializationError InvalidCharacterError), bridge).
Proof.
exact (@initialize_refuses_trailing_dash primitives bridge []
         ([10] ++ lit "MDA=" ++ [10])
         ([10] ++ pem_header ++ [10] ++ lit "MDE=" ++ [10] ++ pem_footer ++ [10])
         (Forall_nil_2 _) no_dash_in_body dash_in_second_block).
Defined.

End ArmourExamples.

(* ===================================================================== *)
(** * More on [initialize] *)
(* ===================================================================== *)

Section InitializeMore.
Context `{Primitives}.

Lemma base64ToArrayBuffer_error (base64 : DOMString) (x : DOMException) :
base64ToArrayBuffer base64 = Err x -> x = InvalidCharacterError.
Proof.
unfold base64ToArrayBuffer, atob.
destruct (Base64.decode base64); cbn [obind]; [discriminate|].
now intros [= <-].
Qed.

(** The cause [initialize] reports tells the two kinds of bad key material
  apart: "InvalidCharacterError" exactly for text that is not base64,
  "DataError" exactly for bytes that are not an RSA
  [SubjectPublicKeyInfo]; no other cause is ever reported. *)
Theorem initialize_error_causes (this : SecureBridge) (pem : DOMString) :
(fst (initialize this pem) = Err (InitializationError InvalidCharacterError)
   <-> malformed pem)
/\ (fst (initialize this pem) = Err (InitializationError DataError)
   <-> unsupported pem)
/\ (forall cause, fst (initialize this pem) = Err (InitializationError cause) ->
      cause = InvalidCharacterError \/ cause = DataError).
Proof.
pose proof (initialize_cases this pem) as Hc.
unfold malformed, unsupported.
destruct (base64ToArrayBuffer (pem_contents pem)) as [der|x] eqn:Hb.
- destruct (parse_spki der) as [k|] eqn:Hp; rewrite Hc; cbn [fst is_ok].
  + split; [split; discriminate|]. split; [|discriminate].
    split; [discriminate|]. intros (der' & [= <-] & Hn). congruence.
  + split; [split; discriminate|]. split.
    * split; [intros _; now exists der | reflexivity].
    * intros cause [= <-]. now right.
- apply base64ToArrayBuffer_error in Hb as Hx. subst x.
  rewrite Hc. cbn [fst is_ok]. split; [split; reflexivity|]. split.
  + split; [discriminate|]. intros (der & Hd & _). discriminate.
  + intros cause [= <-]. now left.
Qed.

(** A call that succeeds stores a key that depends on the key material
  alone, whatever the object held before; and repeating a call, whether
  it succeeded or failed, changes neither the object nor the result. *)
Theorem initialize_overwrites (this this' : SecureBridge) (pem : DOMString) :
(is_ok (fst (initialize this pem)) = true ->
   initialize this' pem = initialize this pem)
/\ initialize (snd (initialize this pem)) pem = initialize this pem.
Proof.
pose proof (initialize_cases this pem) as Hc.
pose proof (initialize_cases this' pem) as Hc'.
pose proof (initialize_cases (snd (initialize this pem)) pem) as Hc2.
destruct (base64ToArrayBuffer (pem_contents pem)) as [der|x].
- destruct (parse_spki der) as [k|].
  + rewrite Hc2, Hc, Hc'. split; reflexivity.
  + rewrite Hc2, Hc. cbn [fst snd is_ok]. split; [discriminate | reflexivity].
- rewrite Hc2, Hc. cbn [fst snd is_ok]. split; [discriminate | reflexivity].
Qed.

End InitializeMore.

(* ===================================================================== *)
(** * More on [encrypt] *)
(* ===================================================================== *)

Section EncryptOutcome.
Context `{Primitives}.

(** The [try] block on an imported key, by cases. *)
Lemma encrypt_steps_cases (k : RsaPublicKey) (data : DOMString) (e : Entropy) :
if 2 ^ 39 - 256 <? Z.of_nat (length (TextEncoder_encode data))
then fst (encrypt_steps (imported_key k) data e) = Err OperationError
else
  match rsa_oaep_encrypt SHA_256 k (drawn_seed SHA_256 e) (drawn_key e) with
  | Some _ => is_ok (fst (encrypt_steps (imported_key k) data e)) = true
  | None => fst (encrypt_steps (imported_key k) data e) = Err OperationError
  end.
Proof.
remember (fst (encrypt_steps (imported_key k) data e)) as r eqn:Hr.
unfold encrypt_steps in Hr.
unfold pbind at 1 in Hr. rewrite generateKey_AesGcm_256 in Hr.
unfold pbind at 1 in Hr. unfold getRandomValues at 1 in Hr. unfold draw at 1 in Hr.
rewrite map_shift_seq in Hr. fold (drawn_nonce e) in Hr.
unfold pbind at 1 in Hr. rewrite subtle_encrypt_AesGcm_128 in Hr.
destruct (2 ^ 39 - 256 <? Z.of_nat (length (TextEncoder_encode data)));
  [exact Hr|].
cbv zeta beta iota in Hr.
unfold pbind at 1 in Hr. unfold exportKey_raw at 1 in Hr.
cbn [key_data key_extractable] in Hr.
unfold ret at 1 in Hr. cbv beta iota in Hr.
unfold pbind at 1 in Hr. unfold subtle_encrypt at 1 in Hr.
cbn [imported_key key_algorithm key_data has_usage key_usages existsb
     KeyUsage_eqb orb negb] in Hr.
unfold pbind at 1 in Hr. unfold getRandomValues at 1 in Hr. unfold draw at 1 in Hr.
assert (Hseed : map (fun i => e (32 + (12 + i))%nat) (seq 0 (digest_length SHA_256))
                = drawn_seed SHA_256 e).
{ unfold drawn_seed. rewrite <- (map_shift_seq e 44).
  apply map_ext. intros i. f_equal. }
rewrite Hseed in Hr.
destruct (rsa_oaep_encrypt SHA_256 k (drawn_seed SHA_256 e) (drawn_key e));
  [|exact Hr].
unfold ret at 1 in Hr. cbv beta iota in Hr.
rewrite !arrayBufferToBase64_ok in Hr. now subst r.
Qed.

(** On an initialized cipher [encrypt] succeeds exactly when the encoded
  text is within the size AES-GCM takes and RSA-OAEP can wrap the key;
  otherwise it fails with the encryption error caused by an
  "OperationError", and with no other error. *)
Theorem encrypt_outcome
  (this : SecureBridge) (k : RsaPublicKey) (data : DOMString) (e : Entropy) :
publicKey this = Some (imported_key k) ->
(is_ok (fst (encrypt this data e)) = true
   <-> Z.of_nat (length (TextEncoder_encode data)) <= 2 ^ 39 - 256
       /\ is_Some (rsa_oaep_encrypt SHA_256 k (drawn_seed SHA_256 e) (drawn_key e)))
/\ (forall err, fst (encrypt this data e) = Err err ->
      err = EncryptionError OperationError).
Proof.
intros Hk. unfold encrypt. rewrite Hk.
pose proof (encrypt_steps_cases k data e) as Hc.
destruct (Z.ltb_spec (2 ^ 39 - 256) (Z.of_nat (length (TextEncoder_encode data))))
  as [Hlong|Hfits].
- destruct (encrypt_steps (imported_key k) data e) as [[p|x] e1];
    cbn [fst] in Hc; [discriminate|]. injection Hc as ->. cbn [fst is_ok].
  split; [split; [discriminate | intros [Hle _]; lia]|].
  now intros err [= <-].
- destruct (rsa_oaep_encrypt SHA_256 k (drawn_seed SHA_256 e) (drawn_key e))
    as [wrapped|].
  + destruct (encrypt_steps (imported_key k) data e) as [[p|x] e1];
      cbn [fst is_ok] in Hc; [|discriminate]. cbn [fst is_ok].
    split; [split; [intros _; split; [exact Hfits | now exists wrapped] | reflexivity]|].
    discriminate.
  + destruct (encrypt_steps (imported_key k) data e) as [[p|x] e1];
      cbn [fst] in Hc; [discriminate|]. injection Hc as ->. cbn [fst is_ok].
    split; [split; [discriminate | intros [_ [w Hw]]; discriminate]|].
    now intros err [= <-].
Qed.

End EncryptOutcome.

Lemma encrypt_outcome_example :
  (is_ok (fst (@encrypt Toy.primitives Toy.bridge Toy.text Toy.counting)) = true
     <-> Z.of_nat (length (TextEncoder_encode Toy.text)) <= 2 ^ 39 - 256
         /\ is_Some (Toy.wrap SHA_256 [x30; x30] (drawn_seed SHA_256 Toy.counting)
                       (drawn_key Toy.counting)))
  /\ (forall err, fst (@encrypt Toy.primitives Toy.bridge Toy.text Toy.counting) = Err err ->
        err = EncryptionError OperationError).
Proof.
  exact (@encrypt_outcome Toy.primitives Toy.bridge [x30; x30] Toy.text Toy.counting
           ToyFacts.bridge_publicKey).
Defined.

(* ===================================================================== *)
(** * The size of encoded text *)
(* ===================================================================== *)

Module Utf8Size.
Import Unicode UnicodeFacts.





End Utf8Size.

(* ===================================================================== *)
(** * The payload on the wire *)
(* ===================================================================== *)

Section Payload.
Context `{PrimitiveLaws}.

Lemma encode_bytes_chars (bs : list byte) :
Forall (fun c => is_base64_char c = true) (Base64.encode (map byte_to_Z bs)).
Proof.
apply Base64Shape.encode_chars, Forall_forall. intros z Hz.
apply list_elem_of_In, in_map_iff in Hz. destruct Hz as (b & <- & _).
apply byte_to_Z_range.
Qed.

(** Every field of a payload is base64 text; [iv] has 16 characters,
  [auth_tag] has 24, and [encrypted_data] has four for every three bytes
  of the encoded text, rounded up. *)
Theorem encrypt_payload_on_the_wire
  (this : SecureBridge) (data : DOMString) (e e' : Entropy)
  (payload : EncryptedPayload) :
reachable this ->
encrypt this data e = (Ok payload, e') ->
length (iv payload) = 16%nat
/\ length (auth_tag payload) = 24%nat
/\ length (encrypted_data payload)
   = (4 * ((length (TextEncoder_encode data) + 2) / 3))%nat
/\ Forall (fun c => is_base64_char c = true) (encrypted_data payload)
/\ Forall (fun c => is_base64_char c = true) (encrypted_key payload)
/\ Forall (fun c => is_base64_char c = true) (iv payload)
/\ Forall (fun c => is_base64_char c = true) (auth_tag payload).
Proof.
intros Hr He.
destruct (reachable_publicKey this Hr) as [Hn | [k Hk]].
{ unfold encrypt in He. rewrite Hn in He. discriminate. }
destruct (encrypt_ok this k data e payload e' Hk He) as (wrapped & _ & Hp & _).
cbv zeta in Hp. subst payload. cbn [encrypted_data encrypted_key iv auth_tag].
rewrite !Base64Shape.encode_length, !length_map.
rewrite gcm_tag_length, gcm_ctr_length.
unfold drawn_nonce. rewrite length_map, length_seq.
repeat split; try reflexivity; apply encode_bytes_chars.
Qed.

(** Under the same key and nonce, two different well-formed texts never
  get the same [encrypted_data]. *)
Theorem encrypt_separates_texts
  (this : SecureBridge) (P1 P2 : DOMString) (e e1 e2 : Entropy)
  (p1 p2 : EncryptedPayload) :
reachable this ->
Unicode.isWellFormed P1 = true ->
Unicode.isWellFormed P2 = true ->
encrypt this P1 e = (Ok p1, e1) ->
encrypt this P2 e = (Ok p2, e2) ->
P1 <> P2 ->
encrypted_data p1 <> encrypted_data p2.
Proof.
intros Hr Hw1 Hw2 H1 H2 Hne Heq. apply Hne.
destruct (reachable_publicKey this Hr) as [Hn | [k Hk]].
{ unfold encrypt in H1. rewrite Hn in H1. discriminate. }
destruct (encrypt_ok this k P1 e p1 e1 Hk H1) as (w1 & _ & Hp1 & _).
destruct (encrypt_ok this k P2 e p2 e2 Hk H2) as (w2 & _ & Hp2 & _).
cbv zeta in Hp1, Hp2. subst p1 p2. cbn [encrypted_data] in Heq.
apply encode_bytes_inj in Heq.
apply (f_equal (gcm_ctr (drawn_key e) (drawn_nonce e))) in Heq.
rewrite !gcm_ctr_involutive in Heq.
apply (f_equal utf8_to_string) in Heq.
rewrite !utf8_to_string_encode in Heq by assumption.
now injection Heq.
Qed.


End Payload.

Module PayloadExamples.
Import Toy ToyFacts Samples.

Lemma sealed_text :
@encrypt primitives bridge text counting
= (Ok payload, snd (@encrypt primitives bridge text counting)).
Proof. apply injective_projections; [vm_compute|]; reflexivity. Qed.

Lemma encrypt_payload_on_the_wire_example :
length (iv payload) = 16%nat
/\ length (auth_tag payload) = 24%nat
/\ length (encrypted_data payload)
   = (4 * ((length (TextEncoder_encode text) + 2) / 3))%nat
/\ Forall (fun c => is_base64_char c = true) (encrypted_data payload)
/\ Forall (fun c => is_base64_char c = true) (encrypted_key payload)
/\ Forall (fun c => is_base64_char c = true) (iv payload)
/\ Forall (fun c => is_base64_char c = true) (auth_tag payload).
Proof.
exact (@encrypt_payload_on_the_wire primitives laws bridge text counting _ payload
         bridge_reachable sealed_text).
Defined.

Lemma sealed_text' :
@encrypt primitives bridge text' counting
= (Ok payload', snd (@encrypt primitives bridge text' counting)).
Proof. apply injective_projections; [vm_compute|]; reflexivity. Qed.

Lemma texts_differ : text <> text'.
Proof. intros Heq. vm_compute in Heq. discriminate. Qed.

Lemma encrypt_separates_texts_example :
text <> text' /\ encrypted_data payload <> encrypted_data payload'.
Proof.
split; [exact texts_differ|].
exact (@encrypt_separates_texts primitives laws bridge text text' counting _ _
         payload payload' bridge_reachable eq_refl eq_refl sealed_text sealed_text'
         texts_differ).
Defined.



End PayloadExamples.

(* ===================================================================== *)
(** * The hook over a sequence of mounts *)
(* ===================================================================== *)

Section HookRuns.
Context `{Primitives}.

Lemma initialize_key_of_pem (this : SecureBridge) (pem : DOMString) :
initialize this pem
= match key_of_pem pem with
  | Some k => (Ok tt, {| publicKey := Some (imported_key k) |})
  | None => (fst (initialize this pem), this)
  end.
Proof.
pose proof (initialize_cases this pem) as Hc. unfold key_of_pem.
destruct (base64ToArrayBuffer (pem_contents pem)) as [der|x].
- destruct (parse_spki der); rewrite Hc; reflexivity.
- rewrite Hc. reflexivity.
Qed.

Lemma initialize_key_of_pem_error (this : SecureBridge) (pem : DOMString) :
key_of_pem pem = None -> is_ok (fst (initialize this pem)) = false.
Proof.
pose proof (initialize_cases this pem) as Hc. unfold key_of_pem.
destruct (base64ToArrayBuffer (pem_contents pem)) as [der|x].
- destruct (parse_spki der); [discriminate|]. now rewrite Hc.
- now rewrite Hc.
Qed.

(** One mount, by cases on the flag and on what the backend answers. *)
Lemma useSecureBridge_cases (response : option DOMString) (g : HookModule) :
useSecureBridge response g
= if isInitialized g then (g, {| ready := true; error := None |})
  else
    match response with
    | Some pem =>
        match key_of_pem pem with
        | Some k =>
            ({| bridgeInstance := {| publicKey := Some (imported_key k) |};
                isInitialized := true |},
             {| ready := true; error := None |})
        | None => (g, {| ready := false; error := Some unavailable |})
        end
    | None => (g, {| ready := false; error := Some unavailable |})
    end.
Proof.
unfold useSecureBridge, init.
destruct (isInitialized g) eqn:Hi; [reflexivity|].
destruct response as [pem|]; cbn [ready error].
- rewrite (initialize_key_of_pem (bridgeInstance g) pem).
  destruct (key_of_pem pem) as [k|] eqn:Hk; [reflexivity|].
  pose proof (initialize_key_of_pem_error (bridgeInstance g) pem Hk) as He.
  destruct (fst (initialize (bridgeInstance g) pem)); [discriminate|].
  destruct g as [b i]. cbn in *. now subst i.
- now destruct g.
Qed.

(** The flag is set exactly when the shared instance holds a key. *)
Lemma hook_reachable_invariant (g : HookModule) :
hook_reachable g ->
(isInitialized g = true ->
   exists k, publicKey (bridgeInstance g) = Some (imported_key k))
/\ (isInitialized g = false -> bridgeInstance g = new_SecureBridge).
Proof.
induction 1 as [|response g _ [IH1 IH2]]; [split; [discriminate | reflexivity]|].
assert (Hsame : (isInitialized g = true ->
                   exists k, publicKey (bridgeInstance g) = Some (imported_key k))
                /\ (isInitialized g = false -> bridgeInstance g = new_SecureBridge))
  by (split; assumption).
rewrite useSecureBridge_cases.
destruct (isInitialized g) eqn:Hi; [cbn [fst]; rewrite Hi; exact Hsame|].
destruct response as [pem|]; [|cbn [fst]; rewrite Hi; exact Hsame].
destruct (key_of_pem pem) as [k|]; [|cbn [fst]; rewrite Hi; exact Hsame].
cbn [fst isInitialized bridgeInstance publicKey].
split; [intros _; now exists k | discriminate].
Qed.

(** After any earlier mounts, a component that mounts ends in one of two
  ways. Either it is ready, with no error, and then the shared instance
  holds an imported key, so [encrypt] on it never raises the
  not-initialized error. Or it is not ready, its error is "Encryption
  service unavailable.", and the module state is as it was before the
  mount, so that a later mount asks the backend again. *)
Theorem useSecureBridge_ready_or_error
  (g g' : HookModule) (response : option DOMString) (c : HookState) :
hook_reachable g ->
useSecureBridge response g = (g', c) ->
(ready c = true /\ error c = None /\ isInitialized g' = true
 /\ (exists k, publicKey (bridgeInstance g') = Some (imported_key k))
 /\ (forall data e,
       fst (encrypt (bridgeInstance g') data e) <> Err NotInitializedError))
\/ (ready c = false /\ error c = Some unavailable /\ g' = g
    /\ isInitialized g = false).
Proof.
intros Hr Hm.
assert (Hr' : hook_reachable g').
{ replace g' with (fst (useSecureBridge response g)) by now rewrite Hm.
  now constructor. }
destruct (hook_reachable_invariant g' Hr') as [Hkey _].
rewrite useSecureBridge_cases in Hm.
assert (Hgood : isInitialized g' = true ->
          (exists k, publicKey (bridgeInstance g') = Some (imported_key k))
          /\ (forall data e,
                fst (encrypt (bridgeInstance g') data e) <> Err NotInitializedError)).
{ intros Hi. destruct (Hkey Hi) as [k Hk]. split; [now exists k|].
  intros data e Hne. apply encrypt_NotInitialized in Hne. congruence. }
destruct (isInitialized g) eqn:Hi.
- injection Hm as <- <-. left. cbn [ready error].
  split; [reflexivity|]. split; [reflexivity|]. split; [exact Hi|].
  now apply Hgood.
- destruct response as [pem|].
  + destruct (key_of_pem pem) as [k|].
    * injection Hm as <- <-. left. cbn [ready error isInitialized].
      split; [reflexivity|]. split; [reflexivity|]. split; [reflexivity|].
      now apply Hgood.
    * injection Hm as <- <-. right. now cbn [ready error].
  + injection Hm as <- <-. right. now cbn [ready error].
Qed.

Lemma run_mounts_cons (response : option DOMString)
  (rest : list (option DOMString)) (g : HookModule) :
fst (run_mounts (response :: rest) g)
= fst (run_mounts rest (fst (useSecureBridge response g))).
Proof.
cbn [run_mounts]. destruct (useSecureBridge response g) as [g1 c].
cbn [fst]. now destruct (run_mounts rest g1).
Qed.

Lemma run_mounts_initialized (responses : list (option DOMString)) (g : HookModule) :
isInitialized g = true -> fst (run_mounts responses g) = g.
Proof.
intros Hi. induction responses as [|response rest IH]; [reflexivity|].
rewrite run_mounts_cons, useSecureBridge_cases, Hi. exact IH.
Qed.

(** However many components mount, the shared instance is initialized at
  most once: it ends holding the key of the first answer of the backend
  that carried one, whatever later answers carry, and no key at all if
  none did. *)
Theorem run_mounts_first_key (responses : list (option DOMString)) :
publicKey (bridgeInstance (fst (run_mounts responses module_load)))
  = imported_key <$> first_key responses
/\ isInitialized (fst (run_mounts responses module_load))
   = bool_decide (is_Some (first_key responses)).
Proof.
generalize module_load (eq_refl : isInitialized module_load = false)
  (eq_refl : bridgeInstance module_load = new_SecureBridge).
intros g Hi Hb. induction responses as [|response rest IH].
- cbn [run_mounts first_key fst]. rewrite Hb, Hi. split; [reflexivity|].
  symmetry. apply bool_decide_eq_false. intros [k Hk]. discriminate.
- rewrite run_mounts_cons, useSecureBridge_cases, Hi. cbn [first_key].
  destruct response as [pem|]; [|exact IH].
  destruct (key_of_pem pem) as [k|]; [|exact IH].
  cbn [fst]. rewrite run_mounts_initialized by reflexivity.
  cbn [bridgeInstance publicKey isInitialized].
  split; [reflexivity|]. symmetry. apply bool_decide_eq_true. now exists k.
Qed.

End HookRuns.

(* ===================================================================== *)
(** * Submitting the form *)
(* ===================================================================== *)

Section Submit.
Context `{Primitives}.
Import AddSecureIdentity.


End Submit.

Module HookRunExamples.
Import Toy AddSecureIdentity Samples.

Lemma module_load_mount :
@useSecureBridge primitives (Some pem) (@module_load primitives)
= (after_first, {| ready := true; error := None |}).
Proof. reflexivity. Qed.

(** The first component to mount, the backend serving [pem]. *)
Lemma useSecureBridge_ready_or_error_example :
(ready {| ready := true; error := None |} = true
 /\ error {| ready := true; error := None |} = None
 /\ @isInitialized primitives after_first = true
 /\ (exists k, @publicKey primitives (@bridgeInstance primitives after_first)
               = Some (@imported_key primitives k))
 /\ (forall data e,
       fst (@encrypt primitives (@bridgeInstance primitives after_first) data e)
       <> Err NotInitializedError))
\/ (ready {| ready := true; error := None |} = false
    /\ error {| ready := true; error := None |} = Some unavailable
    /\ after_first = @module_load primitives
    /\ @isInitialized primitives (@module_load primitives) = false).
Proof.
exact (@useSecureBridge_ready_or_error primitives (@module_load primitives)
         after_first (Some pem) _ (@hook_loaded primitives) module_load_mount).
Defined.


(** Computed: the request carries the name as typed and the payload of
  the national id. *)
Example submitted_request :
fst (@mutationFn primitives (@bridgeInstance primitives after_first) true
       form counting)
= Ok {| full_name := lit "Ada Lovelace"; spread := payload |}.
Proof. vm_compute. reflexivity. Qed.

End HookRunExamples.
